(** * Single-elimination tournament bot: state machine and pairing engine

    A shallow embedding of the tournament core of the Discord bot:
    the global [tournamentState] record, [generatePairings],
    [updateTournamentPost] and the three event handlers
    ([/start-tournament], [messageReactionAdd], [interactionCreate]).

    The repository holds several revisions of the same program.  Module
    [IndexJs] follows [src/index.js] (the handlers of
    [src/unnamed/part_000] are the same code); module [VariantA] follows
    the first program of [src/unnamed/part_001] (BYE matches resolved at
    generation time) and module [VariantB] the second program of that
    file (round completion decided on the number of winners).

    Conventions of the embedding:
    - JavaScript strings are [string]; [null] is [None];
    - array lengths and match numbers are [nat] (they stay far below
      2^53, where JavaScript numbers are exact);
    - [Math.random] inside [Array.prototype.sort] is an injected
      [Shuffle]: some permutation of the array, chosen by the
      environment at every call;
    - a handler is a function from the state and the delivered event to
      the new state and the list of messages it sends; awaited Discord
      calls whose result the handler depends on (fetching a user, a
      channel, the announcement) are booleans or options carried by the
      event, while replies and follow-ups are taken to be delivered;
    - events are handled one at a time, in the order of delivery. *)

From Stdlib Require Import String Ascii List Arith Bool Lia Permutation.
From Stdlib Require Import ZArith.
Import ListNotations.
Open Scope string_scope.
Open Scope list_scope.
Open Scope nat_scope.

(** ** Data model *)

(** [{ id: 'userID', username: 'username' }] *)
Record Player := mkPlayer { id : string; username : string }.

(** [{ matchId, p1, p2, winner }]: slots hold usernames, [winner] is a
    username or [null]. *)
Record Match := mkMatch {
  matchId : nat;
  p1 : string;
  p2 : string;
  winner : option string
}.

(** [{ name, prize, entryFee, organizer }] *)
Record Details := mkDetails {
  name : option string;
  prize : option string;
  entryFee : string;
  organizer : string
}.

(** The global [tournamentState]; [details] is [None] for [{}]. *)
Record TournamentState := mkState {
  isActive : bool;
  channelId : option string;
  messageId : option string;
  participants : list Player;
  details : option Details;
  bracket : list Match
}.

Definition set_isActive (b : bool) (st : TournamentState) : TournamentState :=
  mkState b (channelId st) (messageId st) (participants st) (details st) (bracket st).

Definition set_participants (ps : list Player) (st : TournamentState) : TournamentState :=
  mkState (isActive st) (channelId st) (messageId st) ps (details st) (bracket st).

Definition set_bracket (b : list Match) (st : TournamentState) : TournamentState :=
  mkState (isActive st) (channelId st) (messageId st) (participants st) (details st) b.

Definition set_messageId (m : option string) (st : TournamentState) : TournamentState :=
  mkState (isActive st) (channelId st) m (participants st) (details st) (bracket st).

(** [{ id: 'BYE', username: 'BYE' }], the padding object. *)
Definition BYE : Player := mkPlayer "BYE" "BYE".

(** JavaScript truthiness of a string-or-null value: [!v] holds for
    [null] and for the empty string. *)
Definition falsy (v : option string) : bool :=
  match v with
  | None => true
  | Some s => String.eqb s ""
  end.

(** [v !== null] *)
Definition not_null (v : option string) : bool :=
  match v with
  | None => false
  | Some _ => true
  end.

(** [[...players].sort(() => 0.5 - Math.random())]: the result is the
    same elements in an order the environment picks. *)
Record Shuffle := mkShuffle {
  shuffle :> list Player -> list Player;
  shuffle_perm : forall l, Permutation l (shuffle l)
}.

Definition identity_order : Shuffle :=
  mkShuffle (fun l => l) (fun l => Permutation_refl l).

Definition reversed_order : Shuffle :=
  mkShuffle (@rev Player) (fun l => Permutation_rev l).

(** ** The pairing generator *)

(** [let nextPowerOfTwo = 1; while (nextPowerOfTwo < len) nextPowerOfTwo *= 2;]
    The loop runs fewer than [len] times; [fuel] bounds the iterations. *)
Fixpoint nextPowerOfTwo_loop (fuel npt len : nat) : nat :=
  match fuel with
  | 0 => npt
  | S fuel' =>
      if npt <? len then nextPowerOfTwo_loop fuel' (npt * 2) len else npt
  end.

Definition nextPowerOfTwo (len : nat) : nat := nextPowerOfTwo_loop len 1 len.

(** [for (let i = 0; i < padding; i++) shuffledPlayers.push(BYE)] *)
Definition pad (shuffledPlayers : list Player) : list Player :=
  let padding := nextPowerOfTwo (length shuffledPlayers) - length shuffledPlayers in
  shuffledPlayers ++ repeat BYE padding.

(** [for (let i = 0; i < shuffledPlayers.length / 2; i++) pairings.push(body i)]
    The division is floating point, so [i < length / 2] is [2 * i < length].
    [body] is what one iteration pushes; it reads [shuffledPlayers[i]] and
    [shuffledPlayers[length - 1 - i]]. *)
Fixpoint pairings_loop (body : list Player -> nat -> Match)
    (fuel i : nat) (shuffledPlayers : list Player) (pairings : list Match)
    : list Match :=
  match fuel with
  | 0 => pairings
  | S fuel' =>
      if 2 * i <? length shuffledPlayers
      then pairings_loop body fuel' (S i) shuffledPlayers
             (pairings ++ [body shuffledPlayers i])
      else pairings
  end.

(** Array reads; an index outside the array would make the source throw
    on [undefined.username].  [pair_indices_in_range] below shows the loop
    never leaves the array, so the default is never used. *)
Definition at_index (arr : list Player) (i : nat) : Player := nth i arr BYE.

(** The match pushed by [src/index.js] (and by [VariantB]): winner [null]. *)
Definition pending_match (arr : list Player) (i : nat) : Match :=
  {| matchId := i + 1;
     p1 := username (at_index arr i);
     p2 := username (at_index arr (length arr - 1 - i));
     winner := None |}.

(** The match pushed by [VariantA]: a BYE slot resolves the match at once. *)
Definition preresolved_match (arr : list Player) (i : nat) : Match :=
  let a := at_index arr i in
  let b := at_index arr (length arr - 1 - i) in
  {| matchId := i + 1;
     p1 := username a;
     p2 := username b;
     winner := if String.eqb (username a) "BYE" then Some (username b)
               else if String.eqb (username b) "BYE" then Some (username a)
               else None |}.

(** The usernames in the slots of a round, match by match. *)
Definition slots (round : list Match) : list string :=
  flat_map (fun m => [p1 m; p2 m]) round.

(** [ceil2] of the specification, the smallest power of two that is at
    least [n] ([ceil2_above], [ceil2_least]); [nextPowerOfTwo_ceil2]
    shows that the doubling loop of the source computes it. *)
Definition ceil2 (n : nat) : nat := 2 ^ Nat.log2_up n.

(** ** Events and messages *)

(** What a handler sends out: HTTP responses of the web form, replies and
    follow-ups of a slash command, console lines, edits of the
    announcement message. *)
Inductive Output :=
| HttpAlreadyActive                 (* 400, "A tournament is already active" *)
| HttpMissingDetails                (* 400, "Missing required details." *)
| HttpLaunched                      (* "Success!" page *)
| HttpCouldNotStart                 (* "Could not start tournament." page *)
| LogJoined (u : string)            (* console.log "... joined the tournament." *)
| LogError                          (* console.error in a catch block *)
| PostEdited                        (* message.edit of the announcement *)
| ReplyNoActiveTournament           (* "No active tournament to update." *)
| ReplyNoActiveMatch (w : string)   (* "Could not find an active match for ..." *)
| ReplyAdvancedByBye (w : string)   (* "... automatically advanced due to a BYE." *)
| ReplyAdvanced (w : string)        (* "... has won their match and advanced!" *)
| ReplyWonAgainst (w opponent : string)
| ReplyNeedAdmin
| ReplyNothingToEnd
| ReplyNotStarted
| ReplyAdminOrNotStarted
| ReplyEnded
| FollowUpChampion (w : string)     (* "... has won the entire tournament!" *)
| FollowUpRoundComplete (matches : nat).

(** The body of POST /start-tournament with what the awaited calls gave:
    [channel_ok] says the channel was fetched and is a text channel of the
    guild, [posted] is the id of the announcement once it was sent and
    reacted to ([None] when one of these calls rejects). *)
Record StartRequest := mkStart {
  req_name : option string;
  req_prize : option string;
  req_guildId : option string;
  req_channelId : option string;
  req_entryFee : option string;
  channel_ok : bool;
  posted : option string
}.

(** A [messageReactionAdd] event.  [fetchedUser] is the result of
    [client.users.fetch(user.id)] ([None] when it rejects);
    [post_fetch_ok] says whether the channel and message fetches of
    [updateTournamentPost] resolve. *)
Record Reaction := mkReaction {
  user_bot : bool;
  user_id : string;
  reaction_message_id : string;
  emoji_name : string;
  fetchedUser : option Player;
  reaction_rng : Shuffle;
  post_fetch_ok : bool
}.

(** An [interactionCreate] event; [winner_option] is
    [interaction.options.getUser('winner')], [isAdmin] the permission
    check of the later revisions. *)
Record Interaction := mkInteraction {
  isChatInputCommand : bool;
  commandName : string;
  isAdmin : bool;
  winner_option : Player;
  interaction_rng : Shuffle;
  interaction_post_ok : bool
}.

Inductive Event :=
| StartTournament (req : StartRequest)
| MessageReactionAdd (r : Reaction)
| InteractionCreate (i : Interaction).

(** The emoji of the sign-up reaction. *)
Definition tick : string := "✅".

(** [v || dflt] on a string-or-undefined value. *)
Definition or_default (v : option string) (dflt : string) : string :=
  match v with
  | Some s => if String.eqb s "" then dflt else s
  | None => dflt
  end.

(** The state at program start. *)
Definition initialState : TournamentState :=
  mkState false None None [] None [].

(** POST /start-tournament of [src/index.js] (lines 729-825); [VariantB]
    has the same handler. *)
Definition startTournament (req : StartRequest) (st : TournamentState)
    : TournamentState * list Output :=
  if isActive st then (st, [HttpAlreadyActive])
  else if falsy (req_name req) || falsy (req_prize req)
          || falsy (req_guildId req) || falsy (req_channelId req)
  then (st, [HttpMissingDetails])
  else if negb (channel_ok req) then (st, [LogError; HttpCouldNotStart])
  else
    let st1 :=
      mkState true (req_channelId req) (messageId st) []
        (Some (mkDetails (req_name req) (req_prize req)
                 (or_default (req_entryFee req) "None") "Web App"))
        [] in
    match posted req with
    | Some mid => (set_messageId (Some mid) st1, [HttpLaunched])
    | None => (st1, [LogError; HttpCouldNotStart])
    end.

(** ** The winner search of /updatewinner *)

(** [!match.winner && (match.p1 === winnerUsername || match.p2 === winnerUsername)] *)
Definition eligible (winnerUsername : string) (m : Match) : bool :=
  falsy (winner m)
  && (String.eqb (p1 m) winnerUsername || String.eqb (p2 m) winnerUsername).

(** [match.winner = winnerUsername] *)
Definition set_winner (winnerUsername : string) (m : Match) : Match :=
  mkMatch (matchId m) (p1 m) (p2 m) (Some winnerUsername).

(** [for (const match of bracket) { if (...) { match.winner = ...; reply; break; } }]
    The result is the bracket after the loop and the reply sent, or
    [None] when the loop ends with [matchFound] still false (the bracket is
    then untouched).  [reply] builds the message from the match found. *)
Fixpoint declare_loop (reply : string -> Match -> Output)
    (winnerUsername : string) (b : list Match) : option (list Match * Output) :=
  match b with
  | [] => None
  | m :: rest =>
      if eligible winnerUsername m
      then Some (set_winner winnerUsername m :: rest, reply winnerUsername m)
      else match declare_loop reply winnerUsername rest with
           | Some (rest', r) => Some (m :: rest', r)
           | None => None
           end
  end.

(** [bracket.every(m => m.winner !== null)] *)
Definition allComplete (b : list Match) : bool :=
  forallb (fun m => not_null (winner m)) b.

(** [participants.find(p => p.username === m.winner)] *)
Definition find_by_username (ps : list Player) (w : option string) : option Player :=
  match w with
  | Some u => find (fun p => String.eqb (username p) u) ps
  | None => None
  end.

(** [.filter(p => p !== undefined)] *)
Definition defined {A : Type} (l : list (option A)) : list A :=
  flat_map (fun o => match o with Some x => [x] | None => [] end) l.

(** [bracket.map(m => participants.find(p => p.username === m.winner)).filter(p => p !== undefined)] *)
Definition winners_of (ps : list Player) (b : list Match) : list Player :=
  defined (map (fun m => find_by_username ps (winner m)) b).

(** [participants.some(p => p.id === id)] *)
Definition already_joined (ps : list Player) (i : string) : bool :=
  existsb (fun p => String.eqb (id p) i) ps.

(** The first guard of every reaction handler. *)
Definition not_a_signup (r : Reaction) (st : TournamentState) : bool :=
  user_bot r
  || negb (match messageId st with
           | Some m => String.eqb (reaction_message_id r) m
           | None => false
           end)
  || negb (String.eqb (emoji_name r) tick).

(** The state after /endtournament. *)
Definition resetState : TournamentState := mkState false None None [] None [].

(** ** src/index.js (and src/unnamed/part_000) *)

Module IndexJs.

(** [generatePairings], lines 61-84: no guard on the number of players. *)
Definition generatePairings (rng : Shuffle) (players : list Player) : list Match :=
  let shuffledPlayers := pad (rng players) in
  pairings_loop pending_match (length shuffledPlayers) 0 shuffledPlayers [].

(** [updateTournamentPost], lines 165-204.  The bracket is generated
    inside the [try], after the two fetches. *)
Definition updateTournamentPost (rng : Shuffle) (fetch_ok : bool)
    (st : TournamentState) : TournamentState * list Output :=
  if falsy (messageId st) || falsy (channelId st) then (st, [])
  else if negb fetch_ok then (st, [LogError])
  else
    let st' :=
      if (length (bracket st) =? 0) && (1 <? length (participants st))
      then set_bracket (generatePairings rng (participants st)) st
      else st in
    (st', [PostEdited]).

(** [client.on('messageReactionAdd', ...)], lines 846-861. *)
Definition messageReactionAdd (r : Reaction) (st : TournamentState)
    : TournamentState * list Output :=
  if not_a_signup r st then (st, [])
  else if negb (isActive st) then (st, [])
  else
    match fetchedUser r with
    | None => (st, [])
    | Some fetched =>
        if negb (already_joined (participants st) (id fetched))
        then
          let st1 :=
            set_participants
              (participants st ++ [mkPlayer (id fetched) (username fetched)]) st in
          let '(st2, out) :=
            updateTournamentPost (reaction_rng r) (post_fetch_ok r) st1 in
          (st2, LogJoined (username fetched) :: out)
        else (st, [])
    end.

Definition reply_for (w : string) (m : Match) : Output :=
  if String.eqb (p1 m) "BYE" || String.eqb (p2 m) "BYE"
  then ReplyAdvancedByBye w
  else ReplyAdvanced w.

(** Lines 899-911: the round check after a winner was recorded. *)
Definition advance (rng : Shuffle) (st : TournamentState)
    : TournamentState * list Output :=
  if allComplete (bracket st) && (1 <? length (bracket st))
  then
    let winners := winners_of (participants st) (bracket st) in
    let st1 := set_bracket (generatePairings rng winners) st in
    match bracket st1 with
    | [final] => (set_isActive false st1, [FollowUpChampion (p1 final)])
    | _ => (st1, [])
    end
  else (st, []).

(** [client.on('interactionCreate', ...)], lines 864-915. *)
Definition interactionCreate (ev : Interaction) (st : TournamentState)
    : TournamentState * list Output :=
  if negb (isChatInputCommand ev) then (st, [])
  else if negb (String.eqb (commandName ev) "updatewinner") then (st, [])
  else if negb (isActive st) then (st, [ReplyNoActiveTournament])
  else
    let winnerUsername := username (winner_option ev) in
    match declare_loop reply_for winnerUsername (bracket st) with
    | None => (st, [ReplyNoActiveMatch winnerUsername])
    | Some (b, reply) =>
        let '(st1, out1) := advance (interaction_rng ev) (set_bracket b st) in
        let '(st2, out2) :=
          updateTournamentPost (interaction_rng ev) (interaction_post_ok ev) st1 in
        (st2, reply :: out1 ++ out2)
    end.

Definition step (st : TournamentState) (e : Event) : TournamentState * list Output :=
  match e with
  | StartTournament req => startTournament req st
  | MessageReactionAdd r => messageReactionAdd r st
  | InteractionCreate i => interactionCreate i st
  end.

(** The states the program can be in: the initial one and whatever any
    delivery of events leads to. *)
Inductive reachable : TournamentState -> Prop :=
| reachable_init : reachable initialState
| reachable_step st e : reachable st -> reachable (fst (step st e)).

(** Running a list of events, oldest first. *)
Definition run (st : TournamentState) (es : list Event) : TournamentState :=
  fold_left (fun s e => fst (step s e)) es st.

(** Everything sent during such a run. *)
Fixpoint trace (st : TournamentState) (es : list Event) : list Output :=
  match es with
  | [] => []
  | e :: es' => snd (step st e) ++ trace (fst (step st e)) es'
  end.

End IndexJs.

(** ** src/unnamed/part_001, first program (lines 1-750) *)

Module VariantA.

(** [generatePairings], lines 78-115: guarded, and a match against BYE
    is resolved when it is created. *)
Definition generatePairings (rng : Shuffle) (players : list Player) : list Match :=
  if length players <? 2 then []
  else
    let shuffledPlayers := pad (rng players) in
    pairings_loop preresolved_match (length shuffledPlayers) 0 shuffledPlayers [].

(** [updateTournamentPost], lines 209-262; [fetch_ok = false] stands
    for a fetch that rejects. *)
Definition updateTournamentPost (rng : Shuffle) (fetch_ok : bool)
    (st : TournamentState) : TournamentState * list Output :=
  if falsy (messageId st) || falsy (channelId st) then (st, [])
  else if negb fetch_ok then (st, [LogError])
  else
    let st' :=
      if (length (bracket st) =? 0) && (1 <? length (participants st)) && isActive st
      then set_bracket (generatePairings rng (participants st)) st
      else st in
    (st', [PostEdited]).

(** POST /start-tournament, lines 485-571: the form fields are not
    checked. *)
Definition startTournament (req : StartRequest) (st : TournamentState)
    : TournamentState * list Output :=
  if isActive st then (st, [HttpAlreadyActive])
  else if negb (channel_ok req) then (st, [LogError; HttpCouldNotStart])
  else
    let st1 :=
      mkState true (req_channelId req) (messageId st) []
        (Some (mkDetails (req_name req) (req_prize req)
                 (or_default (req_entryFee req) "None") "Web App"))
        [] in
    match posted req with
    | Some mid => (set_messageId (Some mid) st1, [HttpLaunched])
    | None => (st1, [LogError; HttpCouldNotStart])
    end.

(** [client.on('messageReactionAdd', ...)], lines 599-617: the roster is
    checked against [user.id] before the user is fetched, and the first
    bracket is generated here. *)
Definition messageReactionAdd (r : Reaction) (st : TournamentState)
    : TournamentState * list Output :=
  if not_a_signup r st || negb (isActive st) then (st, [])
  else if negb (already_joined (participants st) (user_id r))
  then
    match fetchedUser r with
    | None => (st, [LogError])
    | Some fetched =>
        let st1 :=
          set_participants
            (participants st ++ [mkPlayer (id fetched) (username fetched)]) st in
        let st2 :=
          if (2 <=? length (participants st1)) && (length (bracket st1) =? 0)
          then set_bracket (generatePairings (reaction_rng r) (participants st1)) st1
          else st1 in
        let '(st3, out) :=
          updateTournamentPost (reaction_rng r) (post_fetch_ok r) st2 in
        (st3, LogJoined (username fetched) :: out)
    end
  else (st, []).

(** [let opponent = match.p1 === winnerUsername ? match.p2 : match.p1] *)
Definition reply_for (w : string) (m : Match) : Output :=
  ReplyWonAgainst w (if String.eqb (p1 m) w then p2 m else p1 m).

(** [bracket.map(m => m.winner).filter(w => w !== 'BYE')]; it is only
    evaluated on a complete round, where no winner is [null]. *)
Definition roundWinners (b : list Match) : list string :=
  filter (fun w => negb (String.eqb w "BYE")) (defined (map winner b)).

(** [{ id: participants.find(p => p.username === username)?.id || 'UNKNOWN', username }] *)
Definition nextRoundPlayer (ps : list Player) (u : string) : Player :=
  mkPlayer
    (match find (fun p => String.eqb (username p) u) ps with
     | Some p => or_default (Some (id p)) "UNKNOWN"
     | None => "UNKNOWN"
     end)
    u.

(** [{ matchId: 1, p1: finalWinner, p2: 'CHAMPION', winner: finalWinner }] *)
Definition champion_match (finalWinner : string) : Match :=
  mkMatch 1 finalWinner "CHAMPION" (Some finalWinner).

(** Lines 677-702: the round check after a winner was recorded. *)
Definition advance (rng : Shuffle) (st : TournamentState)
    : TournamentState * list Output :=
  if allComplete (bracket st)
  then
    match roundWinners (bracket st) with
    | [] => (st, [])
    | [finalWinner] =>
        (set_bracket [champion_match finalWinner] (set_isActive false st),
         [FollowUpChampion finalWinner])
    | ws =>
        let nextRoundPlayers := map (nextRoundPlayer (participants st)) ws in
        let b := generatePairings rng nextRoundPlayers in
        (set_bracket b st, [FollowUpRoundComplete (length b)])
    end
  else (st, []).

(** [client.on('interactionCreate', ...)], lines 620-707. *)
Definition interactionCreate (ev : Interaction) (st : TournamentState)
    : TournamentState * list Output :=
  if negb (isChatInputCommand ev) then (st, [])
  else if String.eqb (commandName ev) "endtournament" then
    if negb (isAdmin ev) then (st, [ReplyNeedAdmin])
    else if negb (isActive st) then (st, [ReplyNothingToEnd])
    else (resetState, [ReplyEnded])
  else if String.eqb (commandName ev) "updatewinner" then
    if negb (isAdmin ev) || negb (isActive st)
       || (length (participants st) <? 2) || (length (bracket st) =? 0)
    then (st, [ReplyAdminOrNotStarted])
    else
      let winnerUsername := username (winner_option ev) in
      match declare_loop reply_for winnerUsername (bracket st) with
      | None => (st, [ReplyNoActiveMatch winnerUsername])
      | Some (b, reply) =>
          let '(st1, out1) := advance (interaction_rng ev) (set_bracket b st) in
          let '(st2, out2) :=
            updateTournamentPost (interaction_rng ev) (interaction_post_ok ev) st1 in
          (st2, reply :: out1 ++ out2)
      end
  else (st, []).

Definition step (st : TournamentState) (e : Event) : TournamentState * list Output :=
  match e with
  | StartTournament req => startTournament req st
  | MessageReactionAdd r => messageReactionAdd r st
  | InteractionCreate i => interactionCreate i st
  end.

Inductive reachable : TournamentState -> Prop :=
| reachable_init : reachable initialState
| reachable_step st e : reachable st -> reachable (fst (step st e)).

End VariantA.

(** ** src/unnamed/part_001, second program (lines 751-1746) *)

Module VariantB.

(** [generatePairings], lines 778-808: guarded, winners left [null]. *)
Definition generatePairings (rng : Shuffle) (players : list Player) : list Match :=
  if length players <? 2 then []
  else
    let shuffledPlayers := pad (rng players) in
    pairings_loop pending_match (length shuffledPlayers) 0 shuffledPlayers [].

(** [updateTournamentPost], lines 895-935. *)
Definition updateTournamentPost (rng : Shuffle) (fetch_ok : bool)
    (st : TournamentState) : TournamentState * list Output :=
  if falsy (messageId st) || falsy (channelId st) then (st, [])
  else if negb fetch_ok then (st, [LogError])
  else
    let st' :=
      if (length (bracket st) =? 0) && (1 <? length (participants st)) && isActive st
      then set_bracket (generatePairings rng (participants st)) st
      else st in
    (st', [PostEdited]).

(** [client.on('messageReactionAdd', ...)], lines 1621-1640. *)
Definition messageReactionAdd (r : Reaction) (st : TournamentState)
    : TournamentState * list Output :=
  if not_a_signup r st then (st, [])
  else if negb (isActive st) then (st, [])
  else
    match fetchedUser r with
    | None => (st, [LogError])
    | Some fetched =>
        if negb (already_joined (participants st) (id fetched))
        then
          let st1 :=
            set_participants
              (participants st ++ [mkPlayer (id fetched) (username fetched)]) st in
          let '(st2, out) :=
            updateTournamentPost (reaction_rng r) (post_fetch_ok r) st1 in
          (st2, LogJoined (username fetched) :: out)
        else (st, [])
    end.

Definition reply_for (w : string) (m : Match) : Output :=
  if String.eqb (p1 m) "BYE" || String.eqb (p2 m) "BYE"
  then ReplyAdvancedByBye w
  else ReplyAdvanced w.

(** [{ matchId: 1, p1: finalWinner, p2: 'CHAMPION', winner: finalWinner }] *)
Definition champion_match (finalWinner : string) : Match :=
  mkMatch 1 finalWinner "CHAMPION" (Some finalWinner).

(** Lines 1718-1738: the round check after a winner was recorded. *)
Definition advance (rng : Shuffle) (st : TournamentState)
    : TournamentState * list Output :=
  if allComplete (bracket st)
  then
    match winners_of (participants st) (bracket st) with
    | [] => (st, [])
    | [only] =>
        let finalWinner := username only in
        (set_isActive false (set_bracket [champion_match finalWinner] st),
         [FollowUpChampion finalWinner])
    | roundWinners =>
        let b := generatePairings rng roundWinners in
        (set_bracket b st, [FollowUpRoundComplete (length b)])
    end
  else (st, []).

(** [client.on('interactionCreate', ...)], lines 1643-1743. *)
Definition interactionCreate (ev : Interaction) (st : TournamentState)
    : TournamentState * list Output :=
  if negb (isChatInputCommand ev) then (st, [])
  else if String.eqb (commandName ev) "endtournament" then
    if negb (isAdmin ev) then (st, [ReplyNeedAdmin])
    else if negb (isActive st) then (st, [ReplyNothingToEnd])
    else (resetState, [ReplyEnded])
  else if String.eqb (commandName ev) "updatewinner" then
    if negb (isAdmin ev) then (st, [ReplyNeedAdmin])
    else if negb (isActive st) then (st, [ReplyNoActiveTournament])
    else if (length (participants st) <? 2) || (length (bracket st) =? 0)
    then (st, [ReplyNotStarted])
    else
      let winnerUsername := username (winner_option ev) in
      match declare_loop reply_for winnerUsername (bracket st) with
      | None => (st, [ReplyNoActiveMatch winnerUsername])
      | Some (b, reply) =>
          let '(st1, out1) := advance (interaction_rng ev) (set_bracket b st) in
          let '(st2, out2) :=
            updateTournamentPost (interaction_rng ev) (interaction_post_ok ev) st1 in
          (st2, reply :: out1 ++ out2)
      end
  else (st, []).

Definition step (st : TournamentState) (e : Event) : TournamentState * list Output :=
  match e with
  | StartTournament req => startTournament req st
  | MessageReactionAdd r => messageReactionAdd r st
  | InteractionCreate i => interactionCreate i st
  end.

Inductive reachable : TournamentState -> Prop :=
| reachable_init : reachable initialState
| reachable_step st e : reachable st -> reachable (fst (step st e)).

(** Running a list of events, oldest first, and everything sent
    meanwhile. *)
Definition run (st : TournamentState) (es : list Event) : TournamentState :=
  fold_left (fun s e => fst (step s e)) es st.

Fixpoint trace (st : TournamentState) (es : list Event) : list Output :=
  match es with
  | [] => []
  | e :: es' => snd (step st e) ++ trace (fst (step st e)) es'
  end.

End VariantB.

(** ** Sample data *)

Definition alice : Player := mkPlayer "1001" "alice".
Definition bob : Player := mkPlayer "1002" "bob".
Definition carol : Player := mkPlayer "1003" "carol".
Definition dave : Player := mkPlayer "1004" "dave".

(** [/updatewinner winner:<user>] run by an administrator, with a shuffle
    for the round it may start and the announcement reachable. *)
Definition updatewinner (rng : Shuffle) (who : Player) : Interaction :=
  mkInteraction true "updatewinner" true who rng true.

(** The tick reaction of [who] on message [mid]. *)
Definition signup (rng : Shuffle) (mid : string) (who : Player) : Reaction :=
  mkReaction false (id who) mid tick (Some who) rng true.

(** A tournament that was launched in channel "c1" with announcement
    "m1" and is over: nothing is active any more. *)
Definition finishedState : TournamentState :=
  mkState false (Some "c1") (Some "m1") [alice; bob]
    (Some (mkDetails (Some "cup") (Some "pie") "None" "Web App"))
    [mkMatch 1 "alice" "bob" None].

(** The same tournament while its only match is still open. *)
Definition finalPending : TournamentState := set_isActive true finishedState.

(** A launch from the web form that goes through: announcement "m1" in
    channel "c1". *)
Definition launch : StartRequest :=
  mkStart (Some "cup") (Some "pie") (Some "g1") (Some "c1") None true (Some "m1").

(** Launch, two sign-ups, and alice declared winner of the only match. *)
Definition two_player_game : list Event :=
  [StartTournament launch;
   MessageReactionAdd (signup identity_order "m1" alice);
   MessageReactionAdd (signup identity_order "m1" bob);
   InteractionCreate (updatewinner identity_order alice)].

(** A sign-up during which the announcement cannot be fetched, so that
    [updateTournamentPost] gives up before it looks at the bracket. *)
Definition signup_unposted (mid : string) (who : Player) : Reaction :=
  mkReaction false (id who) mid tick (Some who) identity_order false.

(** Four sign-ups; the bracket is generated on the fourth, the first time
    the announcement can be refreshed with two or more players on the
    roster.  Then alice is declared winner of match 1. *)
Definition four_player_game : list Event :=
  [StartTournament launch;
   MessageReactionAdd (signup identity_order "m1" alice);
   MessageReactionAdd (signup_unposted "m1" bob);
   MessageReactionAdd (signup_unposted "m1" carol);
   MessageReactionAdd (signup identity_order "m1" dave);
   InteractionCreate (updatewinner identity_order alice)].

(** Three sign-ups, the bracket being generated on the third; then the
    BYE of match 1 is declared winner through a user whose username is
    "BYE", and bob wins match 2. *)
Definition bye_wins_game : list Event :=
  [StartTournament launch;
   MessageReactionAdd (signup identity_order "m1" alice);
   MessageReactionAdd (signup_unposted "m1" bob);
   MessageReactionAdd (signup identity_order "m1" carol);
   InteractionCreate (updatewinner identity_order (mkPlayer "3003" "BYE"));
   InteractionCreate (updatewinner identity_order bob)].

(** The events of [two_player_game] before the winner is declared. *)
Definition two_player_signup : list Event :=
  [StartTournament launch;
   MessageReactionAdd (signup identity_order "m1" alice);
   MessageReactionAdd (signup identity_order "m1" bob)].

(** An announcement of a champion among the messages sent. *)
Definition announces_champion (out : list Output) : Prop :=
  exists w, In (FollowUpChampion w) out.

(** The two-player tournament after its only match was decided, as
    [src/index.js] leaves it. *)
Definition decided (st : TournamentState) : Prop :=
  isActive st = true /\ bracket st = [mkMatch 1 "alice" "bob" (Some "alice")].

(** The same interaction naming another user as the winner. *)
Definition with_winner (ev : Interaction) (who : Player) : Interaction :=
  mkInteraction (isChatInputCommand ev) (commandName ev) (isAdmin ev) who
    (interaction_rng ev) (interaction_post_ok ev).


(** ** Notions used in the statements *)

(** A match the winner search still accepts: [!match.winner]. *)
Definition unresolved (m : Match) : Prop := falsy (winner m) = true.

(** [X] is in no slot of an unresolved match of the round. *)
Definition in_no_unresolved_match (X : string) (b : list Match) : Prop :=
  forall m, In m b -> unresolved m -> p1 m <> X /\ p2 m <> X.

(** A recorded winner is one of the two slots of its match. *)
Definition winner_in_slots (m : Match) : Prop :=
  forall w, winner m = Some w -> w = p1 m \/ w = p2 m.

(** The invariant on a tournament state: it holds of every match of the
    current round. *)
Definition winners_in_slots (st : TournamentState) : Prop :=
  Forall winner_in_slots (bracket st).

(** Counting what a run announced: champions, and rounds that were
    closed (by the next round or by the champion). *)
Definition is_champion (o : Output) : bool :=
  match o with FollowUpChampion _ => true | _ => false end.

Definition is_round_end (o : Output) : bool :=
  match o with
  | FollowUpChampion _ | FollowUpRoundComplete _ => true
  | _ => false
  end.

Definition champions (out : list Output) : nat := length (filter is_champion out).

Definition rounds_completed (out : list Output) : nat :=
  length (filter is_round_end out).

(** The matches of a round that still wait for a winner. *)
Definition pending (b : list Match) : list Match :=
  filter (fun m => falsy (winner m)) b.

(** A declaration the transition table accepts: an administrator runs
    [/updatewinner] for a user on the roster who is in a slot of an
    unresolved match of the current round. *)
Definition valid_declaration (st : TournamentState) (ev : Interaction) : Prop :=
  isChatInputCommand ev = true
  /\ commandName ev = "updatewinner"
  /\ isAdmin ev = true
  /\ In (username (winner_option ev)) (map username (participants st))
  /\ exists m, In m (bracket st) /\ eligible (username (winner_option ev)) m = true.

(** Resolving matches one valid declaration after the other, for as long
    as the tournament is active. *)
Inductive valid_play : TournamentState -> list Interaction -> Prop :=
| valid_play_nil st : valid_play st []
| valid_play_cons st ev evs :
    isActive st = true ->
    valid_declaration st ev ->
    valid_play (fst (VariantB.interactionCreate ev st)) evs ->
    valid_play st (ev :: evs).

(** A tournament of roster [ps] in the middle of a round of [2 ^ k]
    matches, [j] of them pending. *)
Definition mid_round (ps : list Player) (k j : nat) (st : TournamentState) : Prop :=
  isActive st = true
  /\ participants st = ps
  /\ length (bracket st) = 2 ^ k
  /\ Forall (fun m => In (p1 m) (map username ps)) (bracket st)
  /\ Forall (fun m => forall w, winner m = Some w -> In w (map username ps)) (bracket st)
  /\ length (pending (bracket st)) = j
  /\ 1 <= j.

(** Events of a tournament in progress: anything but a launch. *)
Definition in_progress_event (e : Event) : Prop :=
  match e with
  | StartTournament _ => False
  | _ => True
  end.

(** A round numbered 1, 2, 3, ... in array order. *)
Definition numbered (b : list Match) : Prop :=
  map matchId b = seq 1 (length b).

(** ** The bracket image *)

(** What [drawTournamentBracket] puts on the canvas, in drawing order.
    Fill colours: the background '#111827', the text colour '#f3f4f6',
    the winner colour '#4ade80' and the gray '#a1a1aa' of the pending
    label.  Every stroke uses the one line colour, which is left out. *)
Inductive Color := Background | TextColor | WinnerColor | Gray.

Inductive CanvasOp :=
| FillRect (c : Color) (x y w h : nat)
| FillText (c : Color) (text : string) (x y : nat)
| StrokeRect (x y w h : nat)
| StrokeLine (x1 y1 x2 y2 : nat).

(** The canvas created and what was drawn on it. *)
Record Image := mkImage {
  image_width : nat;
  image_height : nat;
  image_ops : list CanvasOp
}.

(** [match.winner === name] *)
Definition winner_is (m : Match) (name : string) : bool :=
  match winner m with
  | Some w => String.eqb w name
  | None => false
  end.

(** [pairings.forEach((match, index) => ...)] *)
Fixpoint forEach_indexed (f : Match -> nat -> list CanvasOp)
    (index : nat) (pairings : list Match) : list CanvasOp :=
  match pairings with
  | [] => []
  | m :: rest => f m index ++ forEach_indexed f (S index) rest
  end.

Module IndexJsImage.

(** Constants of [drawTournamentBracket], src/index.js lines 91-97 and
    111-112. *)
Definition WIDTH : nat := 800.
Definition HEIGHT : nat := 600.
Definition BOX_HEIGHT : nat := 40.
Definition BOX_WIDTH : nat := 180.
Definition startY : nat := 60.
Definition startX : nat := 20.

(** The body of the [forEach], lines 115-156.  [BOX_HEIGHT * 1.5] is
    written [BOX_HEIGHT * 3 / 2]; all coordinates are whole numbers. *)
Definition draw_match (m : Match) (index : nat) : list CanvasOp :=
  let y := startY + index * (BOX_HEIGHT * 2 + 10) in
  let midY := y + BOX_HEIGHT in
  [ StrokeRect startX y BOX_WIDTH (BOX_HEIGHT * 2);
    FillText (if winner_is m (p1 m) then WinnerColor else TextColor)
      (p1 m) (startX + 10) (y + BOX_HEIGHT / 2 + 5);
    FillText (if winner_is m (p2 m) then WinnerColor else TextColor)
      (p2 m) (startX + 10) (y + BOX_HEIGHT * 3 / 2 + 5);
    StrokeLine startX (y + BOX_HEIGHT) (startX + BOX_WIDTH) (y + BOX_HEIGHT);
    StrokeLine (startX + BOX_WIDTH) midY (startX + BOX_WIDTH + 50) midY;
    match winner m with
    | Some w =>
        if String.eqb w ""
        then FillText Gray "WINNER PENDING" (startX + BOX_WIDTH + 60) (midY + 5)
        else FillText WinnerColor (String.append "> " w)
               (startX + BOX_WIDTH + 60) (midY + 5)
    | None => FillText Gray "WINNER PENDING" (startX + BOX_WIDTH + 60) (midY + 5)
    end ].

(** [drawTournamentBracket], src/index.js lines 90-159: a canvas of fixed
    size. *)
Definition drawTournamentBracket (pairings : list Match) : Image :=
  mkImage WIDTH HEIGHT
    (FillRect Background 0 0 WIDTH HEIGHT
     :: FillText TextColor "Tournament Bracket - Current Round" 20 30
     :: forEach_indexed draw_match 0 pairings).

End IndexJsImage.

Module VariantBImage.

(** [drawTournamentBracket] of the second program of part_001, lines
    815-889: the same drawing on a canvas whose height follows the
    number of matches. *)
Definition MATCH_SPACING : nat := 10.

Definition requiredHeight (pairings : list Match) : nat :=
  let totalMatchHeight :=
    length pairings * (IndexJsImage.BOX_HEIGHT * 2 + MATCH_SPACING) in
  Nat.max IndexJsImage.HEIGHT (totalMatchHeight + 80).

Definition drawTournamentBracket (pairings : list Match) : Image :=
  mkImage IndexJsImage.WIDTH (requiredHeight pairings)
    (FillRect Background 0 0 IndexJsImage.WIDTH (requiredHeight pairings)
     :: FillText TextColor "Tournament Bracket - Current Round" 20 30
     :: forEach_indexed IndexJsImage.draw_match 0 pairings).

End VariantBImage.

(** The lowest point an operation reaches: the lower edge of a
    rectangle, the lower end of a line, the baseline of a text. *)
Definition op_bottom (op : CanvasOp) : nat :=
  match op with
  | FillRect _ _ y _ h => y + h
  | FillText _ _ _ y => y
  | StrokeRect _ y _ h => y + h
  | StrokeLine _ y1 _ y2 => Nat.max y1 y2
  end.

(** Nothing is drawn below the lower edge of the canvas. *)
Definition within_height (img : Image) : Prop :=
  Forall (fun op => op_bottom op <= image_height img) (image_ops img).

(** ** The servers a user may manage (part_001, first program) *)






(** ** Further sample data and notions *)

(** Running events through the first program of part_001. *)
Definition runA (st : TournamentState) (es : list Event) : TournamentState :=
  fold_left (fun s e => fst (VariantA.step s e)) es st.




(** A launch whose announcement cannot be posted. *)
Definition launch_unposted : StartRequest :=
  mkStart (Some "cup") (Some "pie") (Some "g1") (Some "c1") None true None.

(** [/endtournament] run by an administrator or by somebody else. *)
Definition endtournament (admin : bool) : Interaction :=
  mkInteraction true "endtournament" admin alice identity_order true.

(** Four sign-ups with the bracket generated on the fourth, nobody
    declared yet. *)
Definition four_player_signup : list Event :=
  [StartTournament launch;
   MessageReactionAdd (signup identity_order "m1" alice);
   MessageReactionAdd (signup_unposted "m1" bob);
   MessageReactionAdd (signup_unposted "m1" carol);
   MessageReactionAdd (signup identity_order "m1" dave)].

(** The first round of alice and bob in the second program of part_001. *)
Definition duel : TournamentState :=
  mkState true (Some "c1") (Some "m1") [alice; bob] None
    (VariantB.generatePairings identity_order [alice; bob]).

(** The list [l] with something appended. *)
Definition extends {A : Type} (l l' : list A) : Prop := exists more, l' = l ++ more.

(** ** Facts about the loops *)

Section Loops.

Lemma ceil2_least (n k : nat) : n <= 2 ^ k -> ceil2 n <= 2 ^ k.
Proof.
  intros H. unfold ceil2.
  destruct (Nat.le_gt_cases n 1) as [Hn | Hn].
  - assert (E : Nat.log2_up n = 0) by (apply Nat.log2_up_eqn0; exact Hn).
    rewrite E. simpl.
    assert (2 ^ k <> 0) by (apply Nat.pow_nonzero; lia). lia.
  - apply Nat.pow_le_mono_r; [lia|].
    apply Nat.log2_up_le_pow2; lia.
Qed.

Lemma ceil2_above (n : nat) : n <= ceil2 n.
Proof.
  unfold ceil2. destruct n as [|n]; [lia|].
  destruct (Nat.le_gt_cases (S n) 1) as [Hn | Hn].
  - assert (E : Nat.log2_up (S n) = 0) by (apply Nat.log2_up_eqn0; exact Hn).
    rewrite E. simpl. lia.
  - pose proof (Nat.log2_up_spec (S n) Hn). lia.
Qed.

End Loops.

Section LoopFacts.

Lemma log2_up_small (n : nat) : n <= 1 -> Nat.log2_up n = 0.
Proof. intros H. apply Nat.log2_up_eqn0. exact H. Qed.

(** The invariant of the doubling loop: [npt] is a power of two whose
    half is still below [len], and the fuel left covers the distance. *)
Lemma log2_up_pin (len k : nat) :
  (k = 0 \/ 2 ^ (k - 1) < len) -> len <= 2 ^ k -> Nat.log2_up len = k.
Proof.
  intros [-> | Hlow] Hup.
  - apply log2_up_small. exact Hup.
  - destruct k as [|k].
    + apply log2_up_small. exact Hup.
    + apply Nat.log2_up_unique; [lia|].
      replace (S k - 1) with k in Hlow by lia.
      rewrite Nat.pred_succ. split; assumption.
Qed.

Lemma nextPowerOfTwo_loop_spec (len fuel k : nat) :
  (k = 0 \/ 2 ^ (k - 1) < len) ->
  len <= 2 ^ (k + fuel) ->
  nextPowerOfTwo_loop fuel (2 ^ k) len = ceil2 len.
Proof.
  revert k. induction fuel as [|fuel IH]; intros k Hlow Hfuel.
  - cbn [nextPowerOfTwo_loop]. rewrite Nat.add_0_r in Hfuel.
    unfold ceil2. rewrite (log2_up_pin len k); auto.
  - cbn [nextPowerOfTwo_loop]. destruct (2 ^ k <? len) eqn:E.
    + apply Nat.ltb_lt in E.
      replace (2 ^ k * 2) with (2 ^ (S k)) by (rewrite Nat.pow_succ_r'; lia).
      apply IH.
      * right. replace (S k - 1) with k by lia. exact E.
      * replace (S k + fuel) with (k + S fuel) by lia. exact Hfuel.
    + apply Nat.ltb_ge in E.
      unfold ceil2. rewrite (log2_up_pin len k); auto.
Qed.

(** The loop has fuel to spare: it returns the least power of two that
    is at least [len]. *)
Lemma nextPowerOfTwo_ceil2 (len : nat) : nextPowerOfTwo len = ceil2 len.
Proof.
  unfold nextPowerOfTwo. change 1 with (2 ^ 0) at 1.
  apply nextPowerOfTwo_loop_spec; [left; reflexivity|].
  simpl. pose proof (Nat.pow_gt_lin_r 2 len). lia.
Qed.

Lemma pad_length (l : list Player) : length (pad l) = ceil2 (length l).
Proof.
  unfold pad. rewrite length_app, repeat_length, nextPowerOfTwo_ceil2.
  pose proof (ceil2_above (length l)). lia.
Qed.

Lemma ceil2_even (n : nat) : 2 <= n -> ceil2 n = 2 * (ceil2 n / 2).
Proof.
  intros H. unfold ceil2.
  assert (L : 0 < Nat.log2_up n) by (apply Nat.log2_up_pos; lia).
  destruct (Nat.log2_up n) as [|k]; [lia|].
  rewrite Nat.pow_succ_r'. rewrite (Nat.mul_comm 2 (2 ^ k)) at 2.
  rewrite Nat.div_mul by lia. reflexivity.
Qed.

Lemma ceil2_half_below (n : nat) : 2 <= n -> ceil2 n / 2 < n.
Proof.
  intros H. unfold ceil2.
  pose proof (Nat.log2_up_spec n ltac:(lia)) as [Hlo _].
  assert (L : 0 < Nat.log2_up n) by (apply Nat.log2_up_pos; lia).
  destruct (Nat.log2_up n) as [|k]; [lia|].
  simpl Nat.pred in Hlo.
  rewrite Nat.pow_succ_r'. rewrite (Nat.mul_comm 2 (2 ^ k)).
  rewrite Nat.div_mul by lia. exact Hlo.
Qed.

(** The pairing loop pushes one match for every [i] with [2 * i < length],
    in increasing order of [i]. *)
Lemma half_up_spec (len i : nat) : 2 * i < len <-> i < (len + 1) / 2.
Proof.
  split; intros H.
  - apply Nat.div_le_lower_bound; lia.
  - destruct (Nat.lt_ge_cases (2 * i) len) as [L | L]; [exact L|].
    exfalso. assert ((len + 1) / 2 < S i); [|lia].
    apply Nat.Div0.div_lt_upper_bound; lia.
Qed.

Lemma pairings_loop_closed body (arr : list Player) (fuel i : nat) (acc : list Match) :
  (length arr + 1) / 2 - i <= fuel ->
  pairings_loop body fuel i arr acc
  = acc ++ map (body arr) (seq i ((length arr + 1) / 2 - i)).
Proof.
  revert i acc. induction fuel as [|fuel IH]; intros i acc Hf.
  - cbn [pairings_loop]. replace ((length arr + 1) / 2 - i) with 0 by lia.
    cbn [seq map]. rewrite app_nil_r. reflexivity.
  - cbn [pairings_loop]. destruct (2 * i <? length arr) eqn:E.
    + apply Nat.ltb_lt in E. apply half_up_spec in E.
      rewrite IH by lia.
      replace ((length arr + 1) / 2 - i) with (S ((length arr + 1) / 2 - S i)) by lia.
      cbn [seq map]. rewrite <- app_assoc. reflexivity.
    + apply Nat.ltb_ge in E.
      assert (Hi : ~ i < (length arr + 1) / 2).
      { intros C. apply half_up_spec in C. lia. }
      replace ((length arr + 1) / 2 - i) with 0 by lia.
      cbn [seq map]. rewrite app_nil_r. reflexivity.
Qed.

Lemma pairings_loop_all body (arr : list Player) :
  pairings_loop body (length arr) 0 arr []
  = map (body arr) (seq 0 ((length arr + 1) / 2)).
Proof.
  rewrite pairings_loop_closed.
  - rewrite Nat.sub_0_r. reflexivity.
  - rewrite Nat.sub_0_r. apply Nat.lt_succ_r.
    apply Nat.Div0.div_lt_upper_bound; lia.
Qed.

End LoopFacts.

(** ** The shape of a generated round *)

Section RoundShape.

(** Any loop body that fills the slots from positions [i] and
    [length - 1 - i] and numbers the match [i + 1]. *)
Variable body : list Player -> nat -> Match.
Hypothesis body_id : forall arr i, matchId (body arr i) = i + 1.
Hypothesis body_p1 : forall arr i, p1 (body arr i) = username (at_index arr i).
Hypothesis body_p2 :
  forall arr i, p2 (body arr i) = username (at_index arr (length arr - 1 - i)).

Lemma pairs_split {A B : Type} (f g : A -> B) (l : list A) :
  Permutation (flat_map (fun x => [f x; g x]) l) (map f l ++ map g l).
Proof.
  induction l as [|x l IH]; cbn [flat_map map app].
  - constructor.
  - apply perm_skip. apply Permutation_cons_app. exact IH.
Qed.

Lemma reads_prefix (arr : list Player) (h : nat) :
  h <= length arr ->
  map (at_index arr) (seq 0 h) = firstn h arr.
Proof.
  revert h. induction arr as [|a arr IH]; intros h Hh.
  - cbn [length] in Hh. replace h with 0 by lia. reflexivity.
  - destruct h as [|h]; [reflexivity|].
    cbn [seq map firstn]. f_equal.
    rewrite <- seq_shift, map_map. cbn [length] in Hh.
    rewrite <- IH by lia. apply map_ext. intros i. reflexivity.
Qed.

Lemma reads_mirror (arr : list Player) (h : nat) :
  h <= length arr ->
  map (fun i => at_index arr (length arr - 1 - i)) (seq 0 h) = firstn h (rev arr).
Proof.
  intros Hh. rewrite <- reads_prefix by (rewrite length_rev; exact Hh).
  apply map_ext_in. intros i Hi. apply in_seq in Hi.
  unfold at_index. rewrite rev_nth by lia. f_equal. lia.
Qed.

(** The slots of the generated matches are the array, each position
    read once. *)
Lemma round_slots (arr : list Player) (h : nat) :
  length arr = 2 * h ->
  Permutation (slots (map (body arr) (seq 0 h))) (map username arr).
Proof.
  intros Hlen. unfold slots. rewrite flat_map_concat_map, map_map.
  rewrite <- flat_map_concat_map.
  rewrite (pairs_split (fun i => p1 (body arr i)) (fun i => p2 (body arr i))).
  rewrite (map_ext _ _ (body_p1 arr)), (map_ext _ _ (body_p2 arr)).
  rewrite <- (map_map (at_index arr) username).
  rewrite <- (map_map (fun i => at_index arr (length arr - 1 - i)) username).
  rewrite reads_prefix, reads_mirror by lia.
  rewrite <- map_app. apply Permutation_map.
  rewrite firstn_rev. replace (length arr - h) with h by lia.
  rewrite <- (firstn_skipn h arr) at 3.
  apply Permutation_app_head. symmetry. apply Permutation_rev.
Qed.

Lemma round_ids (arr : list Player) (h : nat) :
  map matchId (map (body arr) (seq 0 h)) = seq 1 h.
Proof.
  rewrite map_map. rewrite (map_ext _ S).
  - apply seq_shift.
  - intros i. rewrite body_id. lia.
Qed.

(** What [generatePairings] computes from two players on. *)
Lemma round_of_padded (rng : Shuffle) (players : list Player) :
  2 <= length players ->
  let arr := pad (rng players) in
  let round := pairings_loop body (length arr) 0 arr [] in
  round = map (body arr) (seq 0 (ceil2 (length players) / 2))
  /\ length arr = 2 * (ceil2 (length players) / 2).
Proof.
  intros Hn arr round.
  assert (Hlen : length (rng players) = length players).
  { symmetry. apply Permutation_length, shuffle_perm. }
  assert (Harr : length arr = 2 * (ceil2 (length players) / 2)).
  { unfold arr. rewrite pad_length, Hlen. apply ceil2_even. exact Hn. }
  split; [|exact Harr].
  unfold round. rewrite pairings_loop_all. rewrite Harr.
  replace (2 * (ceil2 (length players) / 2) + 1)
    with (1 + (ceil2 (length players) / 2) * 2) by lia.
  rewrite Nat.div_add by lia. reflexivity.
Qed.

Lemma padded_names (rng : Shuffle) (players : list Player) :
  Permutation (map username (pad (rng players)))
    (map username players
     ++ repeat "BYE" (ceil2 (length players) - length players)).
Proof.
  assert (Hlen : length (rng players) = length players).
  { symmetry. apply Permutation_length, shuffle_perm. }
  unfold pad. rewrite nextPowerOfTwo_ceil2, Hlen, map_app.
  apply Permutation_app.
  - apply Permutation_map. symmetry. apply shuffle_perm.
  - rewrite map_repeat. reflexivity.
Qed.

Lemma generated_round (rng : Shuffle) (players : list Player) :
  2 <= length players ->
  let n := length players in
  let arr := pad (rng players) in
  let round := pairings_loop body (length arr) 0 arr [] in
  length round = ceil2 n / 2
  /\ Permutation (slots round) (map username players ++ repeat "BYE" (ceil2 n - n))
  /\ map matchId round = seq 1 (length round).
Proof.
  intros Hn n arr round.
  destruct (round_of_padded rng players Hn) as [Hr Harr].
  fold arr in Hr, Harr. fold round in Hr. fold n in Hr, Harr.
  assert (Hl : length round = ceil2 n / 2).
  { rewrite Hr, length_map, length_seq. reflexivity. }
  split; [exact Hl|]. split.
  - rewrite Hr. rewrite (round_slots arr (ceil2 n / 2) Harr).
    apply padded_names.
  - rewrite Hl, Hr. apply round_ids.
Qed.

End RoundShape.

(** ** The pairing generator of src/index.js *)

Section GeneratePairings.

Lemma pair_indices_in_range (arr : list Player) (i : nat) :
  2 * i < length arr -> i < length arr /\ length arr - 1 - i < length arr.
Proof. lia. Qed.

Lemma ceil2_is_power (n : nat) : exists k, ceil2 n = 2 ^ k.
Proof. exists (Nat.log2_up n). reflexivity. Qed.

Lemma count_in_padded (names : list string) (k : nat) (u : string) :
  count_occ string_dec (names ++ repeat "BYE" k) u
  = count_occ string_dec names u + (if string_dec u "BYE" then k else 0).
Proof.
  rewrite count_occ_app. f_equal.
  destruct (string_dec u "BYE") as [E | E].
  - apply count_occ_repeat_eq. exact E.
  - apply count_occ_repeat_neq. exact E.
Qed.

(** C3. From two players on, [generatePairings] returns [ceil2 n / 2]
    matches, [ceil2 n] being the least power of two that is at least [n];
    the slots of the round hold the contestants, each once, and
    [ceil2 n - n] times the BYE sentinel; the matches are numbered
    1, 2, 3, ... in order.  (Slots hold usernames, so "each once" is
    the equality of the slot names with the contestants' names as
    multisets; the two counting statements read it off for contestants
    whose names are distinct and differ from the sentinel's.) *)
Theorem generatePairings_round (rng : Shuffle) (players : list Player) :
  2 <= length players ->
  let n := length players in
  let round := IndexJs.generatePairings rng players in
  ((exists k, ceil2 n = 2 ^ k) /\ n <= ceil2 n
   /\ forall k, n <= 2 ^ k -> ceil2 n <= 2 ^ k)
  /\ length round = ceil2 n / 2
  /\ Permutation (slots round)
       (map username players ++ repeat "BYE" (ceil2 n - n))
  /\ (~ In "BYE" (map username players) ->
      count_occ string_dec (slots round) "BYE" = ceil2 n - n)
  /\ (NoDup (map username players) -> ~ In "BYE" (map username players) ->
      forall p, In p players ->
                count_occ string_dec (slots round) (username p) = 1)
  /\ map matchId round = seq 1 (length round).
Proof.
  intros Hn n round.
  destruct (generated_round pending_match
              (fun _ _ => eq_refl) (fun _ _ => eq_refl) (fun _ _ => eq_refl)
              rng players Hn) as (Hlen & Hperm & Hids).
  fold n in Hlen, Hperm. change (pairings_loop _ _ _ _ _) with round in Hlen, Hperm, Hids.
  split; [|split; [exact Hlen|split; [exact Hperm|split; [|split; [|exact Hids]]]]].
  - split; [apply ceil2_is_power|]. split; [apply ceil2_above|].
    intros k. apply ceil2_least.
  - intros Hbye.
    rewrite (Permutation_count_occ string_dec) in Hperm. rewrite Hperm.
    rewrite count_in_padded.
    rewrite (proj1 (count_occ_not_In string_dec _ _) Hbye).
    destruct (string_dec "BYE" "BYE"); [reflexivity|congruence].
  - intros Hnd Hbye p Hp.
    rewrite (Permutation_count_occ string_dec) in Hperm. rewrite Hperm.
    rewrite count_in_padded.
    assert (Hin : In (username p) (map username players)) by (apply in_map; exact Hp).
    rewrite (proj1 (NoDup_count_occ' string_dec _) Hnd _ Hin).
    destruct (string_dec (username p) "BYE") as [E | E]; [|reflexivity].
    exfalso. apply Hbye. rewrite <- E. exact Hin.
Qed.

Example three_players_round :
  IndexJs.generatePairings identity_order [alice; bob; carol]
  = [mkMatch 1 "alice" "BYE" None; mkMatch 2 "bob" "carol" None].
Proof. reflexivity. Qed.

Lemma generatePairings_round_witness :
  2 <= length [alice; bob; carol]
  /\ length (IndexJs.generatePairings identity_order [alice; bob; carol]) = 2.
Proof.
  split; [cbn; lia|].
  exact (proj1 (proj2 (generatePairings_round identity_order [alice; bob; carol]
                         ltac:(cbn; lia)))).
Defined.

End GeneratePairings.

(** ** Fewer than two players *)

Section TooFewPlayers.

(** C4 (src/index.js). [generatePairings] has no guard: called with a
    single player it returns a round of one match that pairs the player
    against themself, where the claim asks for a failure.  The later
    revisions return an empty round instead, see
    [guarded_generatePairings_refuses]. *)
Theorem generatePairings_single_player (rng : Shuffle) (p : Player) :
  IndexJs.generatePairings rng [p]
  = [mkMatch 1 (username p) (username p) None].
Proof.
  unfold IndexJs.generatePairings.
  rewrite (Permutation_length_1_inv (shuffle_perm rng [p])).
  reflexivity.
Qed.

Lemma generatePairings_no_player (rng : Shuffle) :
  IndexJs.generatePairings rng [] = [mkMatch 1 "BYE" "BYE" None].
Proof.
  unfold IndexJs.generatePairings.
  rewrite (Permutation_nil (shuffle_perm rng [])).
  reflexivity.
Qed.

(** The unguarded call is within reach of the state machine: when a BYE
    was declared winner, one player is left of a round of two matches and
    the next round pairs that player against themself. *)
Example self_paired_round :
  bracket (IndexJs.run initialState bye_wins_game) = [mkMatch 1 "bob" "bob" None]
  /\ isActive (IndexJs.run initialState bye_wins_game) = false.
Proof. split; reflexivity. Qed.

(** The guard of the two programs of part_001:
    [if (!players || players.length < 2) return [];] *)
Lemma guarded_generatePairings_refuses (rng : Shuffle) (players : list Player) :
  length players < 2 ->
  VariantA.generatePairings rng players = []
  /\ VariantB.generatePairings rng players = [].
Proof.
  intros H. apply Nat.ltb_lt in H.
  unfold VariantA.generatePairings, VariantB.generatePairings.
  rewrite H. split; reflexivity.
Qed.

End TooFewPlayers.

(** ** Declaring a winner nobody is waiting for *)

Section NoActiveMatch.

Lemma declare_loop_none reply (X : string) (b : list Match) :
  in_no_unresolved_match X b -> declare_loop reply X b = None.
Proof.
  induction b as [|m b IH]; intros H; [reflexivity|].
  cbn [declare_loop].
  assert (E : eligible X m = false).
  { unfold eligible. destruct (falsy (winner m)) eqn:F; [|reflexivity].
    destruct (H m (or_introl eq_refl) F) as [H1 H2].
    apply String.eqb_neq in H1, H2. rewrite H1, H2. reflexivity. }
  rewrite E, IH; [reflexivity|].
  intros m' Hin. apply H. right. exact Hin.
Qed.

(** C5, the claim as stated fails on an idle tournament: the command is
    turned down with "No active tournament to update.", not with
    the missing-match reply. *)
Lemma declareWinner_idle_counterexample :
  in_no_unresolved_match "alice" (bracket initialState)
  /\ IndexJs.interactionCreate (updatewinner identity_order alice) initialState
     = (initialState, [ReplyNoActiveTournament])
  /\ snd (IndexJs.interactionCreate (updatewinner identity_order alice) initialState)
     <> [ReplyNoActiveMatch "alice"].
Proof.
  split; [intros m []|]. split; [reflexivity|]. cbn. discriminate.
Qed.

(** C5, amended. When [X] is in no unresolved match of the current
    round, [/updatewinner X] changes nothing in the tournament state; it
    answers with the missing-match reply when a tournament is active
    and with the no-active-tournament reply otherwise. *)
Theorem declareWinner_no_match (st : TournamentState) (ev : Interaction) :
  isChatInputCommand ev = true ->
  commandName ev = "updatewinner" ->
  in_no_unresolved_match (username (winner_option ev)) (bracket st) ->
  IndexJs.interactionCreate ev st
  = (st, [if isActive st
          then ReplyNoActiveMatch (username (winner_option ev))
          else ReplyNoActiveTournament]).
Proof.
  intros Hc Hn Hx. unfold IndexJs.interactionCreate.
  rewrite Hc, Hn, String.eqb_refl. cbn [negb].
  destruct (isActive st); cbn [negb]; [|reflexivity].
  rewrite (declare_loop_none _ _ _ Hx). reflexivity.
Qed.

Lemma declareWinner_no_match_witness :
  IndexJs.interactionCreate (updatewinner identity_order carol) finalPending
  = (finalPending, [ReplyNoActiveMatch "carol"]).
Proof.
  apply (declareWinner_no_match finalPending (updatewinner identity_order carol)).
  - reflexivity.
  - reflexivity.
  - intros m [<- | []] _. cbn. split; discriminate.
Defined.

End NoActiveMatch.

(** ** Joining *)

Section Join.

(** [updateTournamentPost] writes nothing but the bracket, and that
    only when the bracket is empty. *)
Lemma updateTournamentPost_frame (rng : Shuffle) (ok : bool) (st : TournamentState) :
  let st' := fst (IndexJs.updateTournamentPost rng ok st) in
  isActive st' = isActive st /\ channelId st' = channelId st
  /\ messageId st' = messageId st /\ participants st' = participants st
  /\ details st' = details st
  /\ (bracket st <> [] -> bracket st' = bracket st).
Proof.
  unfold IndexJs.updateTournamentPost.
  destruct (falsy (messageId st) || falsy (channelId st)); [cbn; tauto|].
  destruct ok; cbn [negb fst]; [|tauto].
  destruct (bracket st) as [|m b] eqn:Hb.
  - cbn [length Nat.eqb andb].
    destruct (1 <? length (participants st)); cbn; rewrite ?Hb; tauto.
  - cbn [length Nat.eqb andb]. rewrite Hb. repeat split; reflexivity.
Qed.

Lemma not_a_signup_frame (r1 r2 : Reaction) (st st' : TournamentState) :
  user_bot r1 = user_bot r2 ->
  reaction_message_id r1 = reaction_message_id r2 ->
  emoji_name r1 = emoji_name r2 ->
  messageId st' = messageId st ->
  not_a_signup r2 st' = not_a_signup r1 st.
Proof.
  intros Hb Hm He Hs. unfold not_a_signup. rewrite Hb, Hm, He, Hs. reflexivity.
Qed.

Lemma already_joined_after_push (ps : list Player) (q : Player) (i : string) :
  i = id q -> already_joined (ps ++ [q]) i = true.
Proof.
  intros ->. unfold already_joined. rewrite existsb_app. cbn.
  rewrite String.eqb_refl. apply orb_true_r.
Qed.

Lemma already_joined_app (ps qs : list Player) (i : string) :
  already_joined ps i = true -> already_joined (ps ++ qs) i = true.
Proof.
  unfold already_joined. rewrite existsb_app. intros ->. reflexivity.
Qed.

(** What one [join] leaves behind: the guards read the same values
    afterwards, and a user whose sign-up got through is on the roster. *)
Lemma join_outcome (st : TournamentState) (r : Reaction) :
  let st1 := fst (IndexJs.messageReactionAdd r st) in
  isActive st1 = isActive st
  /\ messageId st1 = messageId st
  /\ (forall q, not_a_signup r st = false -> isActive st = true ->
                fetchedUser r = Some q ->
                already_joined (participants st1) (id q) = true).
Proof.
  unfold IndexJs.messageReactionAdd.
  destruct (not_a_signup r st); [cbn; repeat split; intros; congruence|].
  destruct (isActive st) eqn:A; cbn [negb]; [|cbn; repeat split; intros; congruence].
  destruct (fetchedUser r) as [q|]; [|cbn; repeat split; intros; congruence].
  destruct (already_joined (participants st) (id q)) eqn:J; cbn [negb].
  - cbn [fst]. split; [congruence|]. split; [reflexivity|].
    intros q' _ _ [= <-]. exact J.
  - pose proof (updateTournamentPost_frame (reaction_rng r) (post_fetch_ok r)
                  (set_participants
                     (participants st ++ [mkPlayer (id q) (username q)]) st))
      as (Fa & _ & Fm & Fp & _).
    destruct (IndexJs.updateTournamentPost _ _ _) as [s o].
    cbn [fst] in *. cbn [set_participants isActive messageId participants] in Fa, Fm, Fp.
    split; [congruence|]. split; [exact Fm|].
    intros q' _ _ [= <-]. rewrite Fp.
    apply already_joined_after_push. reflexivity.
Qed.

(** C6. A second [join] for the same user id (same announcement, same
    emoji) leaves the roster as the first call left it: same
    size, same order.  In fact the whole state stays as it is and nothing
    is sent. *)
Theorem join_twice_same_id (st : TournamentState) (r1 r2 : Reaction) :
  user_bot r1 = user_bot r2 ->
  reaction_message_id r1 = reaction_message_id r2 ->
  emoji_name r1 = emoji_name r2 ->
  option_map id (fetchedUser r1) = option_map id (fetchedUser r2) ->
  let st1 := fst (IndexJs.messageReactionAdd r1 st) in
  let st2 := fst (IndexJs.messageReactionAdd r2 st1) in
  participants st2 = participants st1
  /\ length (participants st2) = length (participants st1)
  /\ IndexJs.messageReactionAdd r2 st1 = (st1, []).
Proof.
  intros Hb Hm He Hid st1 st2.
  assert (G : IndexJs.messageReactionAdd r2 st1 = (st1, [])).
  { destruct (join_outcome st r1) as (Fa & Fm & Fj). fold st1 in Fa, Fm, Fj.
    unfold IndexJs.messageReactionAdd.
    rewrite (not_a_signup_frame r1 r2 st st1 Hb Hm He Fm), Fa.
    destruct (not_a_signup r1 st) eqn:N1; [reflexivity|].
    destruct (isActive st) eqn:A; cbn [negb]; [|reflexivity].
    destruct (fetchedUser r2) as [q2|] eqn:F2; [|reflexivity].
    destruct (fetchedUser r1) as [q1|] eqn:F1; [|discriminate].
    cbn [option_map] in Hid. injection Hid as Hid.
    rewrite <- Hid, (Fj q1 eq_refl eq_refl eq_refl). reflexivity. }
  unfold st2. rewrite G. cbn [fst]. auto.
Qed.

Lemma join_twice_same_id_witness :
  participants
    (fst (IndexJs.messageReactionAdd (signup reversed_order "m1" carol)
            (fst (IndexJs.messageReactionAdd (signup identity_order "m1" carol)
                    finalPending))))
  = [alice; bob; carol].
Proof.
  pose proof (join_twice_same_id finalPending (signup identity_order "m1" carol)
                (signup reversed_order "m1" carol)
                eq_refl eq_refl eq_refl eq_refl) as [H _].
  cbv zeta in H. rewrite H. reflexivity.
Defined.

(** C8, the claim as stated fails: a reaction that arrives when no
    tournament is active is dropped without any message, so no
    error reaches anybody. *)
Lemma join_after_completion_counterexample :
  IndexJs.messageReactionAdd (signup identity_order "m1" carol) finishedState
  = (finishedState, [])
  /\ ~ In ReplyNoActiveTournament
       (snd (IndexJs.messageReactionAdd (signup identity_order "m1" carol)
               finishedState)).
Proof. split; [reflexivity|]. cbn. tauto. Qed.

(** C8, amended. A [join] delivered while no tournament is active
    (before any was launched, after completion) is ignored silently:
    the roster and the rest of the state are unchanged and nothing is
    replied, logged or posted. *)
Theorem join_when_inactive (st : TournamentState) (r : Reaction) :
  isActive st = false ->
  IndexJs.messageReactionAdd r st = (st, []).
Proof.
  intros H. unfold IndexJs.messageReactionAdd. rewrite H.
  destruct (not_a_signup r st); reflexivity.
Qed.

Lemma join_when_inactive_witness :
  participants
    (fst (IndexJs.messageReactionAdd (signup identity_order "m1" carol) finishedState))
  = [alice; bob].
Proof.
  rewrite (join_when_inactive finishedState (signup identity_order "m1" carol) eq_refl).
  reflexivity.
Defined.

End Join.

(** ** The winner of a match is one of its players *)

Section WinnerInvariant.

Lemma pairings_loop_Forall body (P : Match -> Prop) (arr : list Player) :
  (forall i, P (body arr i)) ->
  Forall P (pairings_loop body (length arr) 0 arr []).
Proof.
  intros H. rewrite pairings_loop_all. apply Forall_forall.
  intros m Hm. apply in_map_iff in Hm. destruct Hm as (i & <- & _). apply H.
Qed.

Lemma pending_match_ok (arr : list Player) (i : nat) :
  winner_in_slots (pending_match arr i).
Proof. intros w H. discriminate H. Qed.

Lemma preresolved_match_ok (arr : list Player) (i : nat) :
  winner_in_slots (preresolved_match arr i).
Proof.
  intros w. unfold preresolved_match. cbn [winner p1 p2].
  destruct (String.eqb (username (at_index arr i)) "BYE").
  - intros [= <-]. right. reflexivity.
  - destruct (String.eqb (username (at_index arr (length arr - 1 - i))) "BYE").
    + intros [= <-]. left. reflexivity.
    + discriminate.
Qed.

Lemma set_winner_ok (w : string) (m : Match) :
  eligible w m = true -> winner_in_slots (set_winner w m).
Proof.
  unfold eligible. intros H w' [= <-]. cbn [set_winner p1 p2].
  apply andb_true_iff in H. destruct H as [_ H].
  apply orb_true_iff in H.
  destruct H as [H | H]; apply String.eqb_eq in H; auto.
Qed.

Lemma declare_loop_ok reply (w : string) (b b' : list Match) (r : Output) :
  declare_loop reply w b = Some (b', r) ->
  Forall winner_in_slots b -> Forall winner_in_slots b'.
Proof.
  revert b' r. induction b as [|m b IH]; intros b' r H Hb; [discriminate|].
  cbn [declare_loop] in H. inversion Hb as [|? ? Hm Hrest]; subst.
  destruct (eligible w m) eqn:E.
  - injection H as <- _. constructor; [apply set_winner_ok; exact E|exact Hrest].
  - destruct (declare_loop reply w b) as [[rest' r']|] eqn:D; [|discriminate].
    injection H as <- _. constructor; [exact Hm|]. eapply IH; eauto.
Qed.

Lemma index_generatePairings_ok (rng : Shuffle) (ps : list Player) :
  Forall winner_in_slots (IndexJs.generatePairings rng ps).
Proof. apply pairings_loop_Forall. apply pending_match_ok. Qed.

Lemma index_post_ok (rng : Shuffle) (ok : bool) (st : TournamentState) :
  winners_in_slots st ->
  winners_in_slots (fst (IndexJs.updateTournamentPost rng ok st)).
Proof.
  intros H. unfold IndexJs.updateTournamentPost.
  destruct (falsy (messageId st) || falsy (channelId st)); [exact H|].
  destruct ok; cbn [negb fst]; [|exact H].
  destruct ((length (bracket st) =? 0) && (1 <? length (participants st)));
    [apply index_generatePairings_ok|exact H].
Qed.

Lemma index_advance_ok (rng : Shuffle) (st : TournamentState) :
  winners_in_slots st -> winners_in_slots (fst (IndexJs.advance rng st)).
Proof.
  intros H. unfold IndexJs.advance.
  destruct (allComplete (bracket st) && (1 <? length (bracket st))); [|exact H].
  cbn [set_bracket bracket].
  pose proof (index_generatePairings_ok rng
                (winners_of (participants st) (bracket st))) as G.
  destruct (IndexJs.generatePairings rng (winners_of (participants st) (bracket st)))
    as [|m [|m' b]]; exact G.
Qed.

Lemma startTournament_ok (req : StartRequest) (st : TournamentState) :
  winners_in_slots st -> winners_in_slots (fst (startTournament req st)).
Proof.
  intros H. unfold startTournament.
  destruct (isActive st); [exact H|].
  destruct (falsy (req_name req) || falsy (req_prize req)
            || falsy (req_guildId req) || falsy (req_channelId req)); [exact H|].
  destruct (channel_ok req); cbn [negb]; [|exact H].
  destruct (posted req); constructor.
Qed.

Lemma index_step_ok (st : TournamentState) (e : Event) :
  winners_in_slots st -> winners_in_slots (fst (IndexJs.step st e)).
Proof.
  intros H. destruct e as [req | r | ev]; cbn [IndexJs.step].
  - apply startTournament_ok. exact H.
  - unfold IndexJs.messageReactionAdd.
    destruct (not_a_signup r st); [exact H|].
    destruct (isActive st); cbn [negb]; [|exact H].
    destruct (fetchedUser r) as [q|]; [|exact H].
    destruct (already_joined (participants st) (id q)); cbn [negb]; [exact H|].
    pose proof (index_post_ok (reaction_rng r) (post_fetch_ok r)
                  (set_participants
                     (participants st ++ [mkPlayer (id q) (username q)]) st) H) as G.
    destruct (IndexJs.updateTournamentPost _ _ _) as [s o]. exact G.
  - unfold IndexJs.interactionCreate.
    destruct (isChatInputCommand ev); cbn [negb]; [|exact H].
    destruct (String.eqb (commandName ev) "updatewinner"); cbn [negb]; [|exact H].
    destruct (isActive st); cbn [negb]; [|exact H].
    destruct (declare_loop IndexJs.reply_for (username (winner_option ev)) (bracket st))
      as [[b reply]|] eqn:D; [|exact H].
    assert (Hb : winners_in_slots (set_bracket b st)).
    { unfold winners_in_slots. cbn [set_bracket bracket].
      eapply declare_loop_ok; eauto. }
    pose proof (index_advance_ok (interaction_rng ev) _ Hb) as G1.
    destruct (IndexJs.advance (interaction_rng ev) (set_bracket b st)) as [s1 o1].
    cbn [fst] in G1.
    pose proof (index_post_ok (interaction_rng ev) (interaction_post_ok ev) _ G1) as G2.
    destruct (IndexJs.updateTournamentPost _ _ s1) as [s2 o2]. exact G2.
Qed.

(** C7. In every state the program can reach, a match of the current
    round whose winner is set has that winner in one of its two slots;
    launching, joining, declaring a winner, starting the next round and
    completing the tournament all keep it so. *)
Theorem winner_is_a_slot (st : TournamentState) :
  IndexJs.reachable st ->
  winners_in_slots st
  /\ forall e, winners_in_slots (fst (IndexJs.step st e)).
Proof.
  intros R.
  assert (H : winners_in_slots st).
  { induction R as [|st e R IH]; [constructor|]. apply index_step_ok. exact IH. }
  split; [exact H|]. intros e. apply index_step_ok. exact H.
Qed.

Lemma index_reachable_run (st : TournamentState) (es : list Event) :
  IndexJs.reachable st -> IndexJs.reachable (IndexJs.run st es).
Proof.
  revert st. induction es as [|e es IH]; intros st R; [exact R|].
  cbn [IndexJs.run fold_left]. apply IH. constructor. exact R.
Qed.

Lemma winner_is_a_slot_witness :
  bracket (IndexJs.run initialState two_player_game)
  = [mkMatch 1 "alice" "bob" (Some "alice")]
  /\ winners_in_slots (IndexJs.run initialState two_player_game).
Proof.
  split; [reflexivity|].
  apply (winner_is_a_slot (IndexJs.run initialState two_player_game)).
  apply index_reachable_run. constructor.
Defined.

End WinnerInvariant.

(** ** The winner search goes by username *)

Section WinnerSearch.

Lemma declare_loop_found reply (w : string) (b b' : list Match) (r : Output) :
  declare_loop reply w b = Some (b', r) ->
  exists pre m post,
    b = pre ++ m :: post
    /\ Forall (fun x => eligible w x = false) pre
    /\ eligible w m = true
    /\ b' = pre ++ set_winner w m :: post
    /\ r = reply w m.
Proof.
  revert b' r. induction b as [|m b IH]; intros b' r H; [discriminate|].
  cbn [declare_loop] in H. destruct (eligible w m) eqn:E.
  - injection H as <- <-. exists [], m, b. cbn. auto.
  - destruct (declare_loop reply w b) as [[rest' r']|] eqn:D; [|discriminate].
    injection H as <- <-.
    destruct (IH rest' r' eq_refl) as (pre & m' & post & -> & Hpre & Hm & -> & ->).
    exists (m :: pre), m', post. cbn. repeat split; auto.
Qed.

Lemma declare_loop_not_found reply (w : string) (b : list Match) :
  declare_loop reply w b = None ->
  Forall (fun x => eligible w x = false) b.
Proof.
  induction b as [|m b IH]; intros H; [constructor|].
  cbn [declare_loop] in H. destruct (eligible w m) eqn:E; [discriminate|].
  destruct (declare_loop reply w b) as [[rest' r']|]; [discriminate|].
  constructor; auto.
Qed.


Lemma index_generatePairings_numbered (rng : Shuffle) (ps : list Player) :
  numbered (IndexJs.generatePairings rng ps).
Proof.
  unfold numbered, IndexJs.generatePairings. rewrite pairings_loop_all.
  rewrite length_map, length_seq.
  apply (round_ids pending_match (fun _ _ => eq_refl)).
Qed.





End WinnerSearch.

(** ** Who can ever sit in the bracket *)

Section BracketMembership.

Lemma at_index_name (arr : list Player) (i : nat) :
  In (username (at_index arr i)) ("BYE" :: map username arr).
Proof.
  unfold at_index. destruct (nth_in_or_default i arr BYE) as [H | ->].
  - right. apply in_map. exact H.
  - left. reflexivity.
Qed.

Lemma pad_names (l : list Player) :
  incl ("BYE" :: map username (pad l)) ("BYE" :: map username l).
Proof.
  unfold pad. rewrite map_app, map_repeat. intros u [<- | H]; [left; reflexivity|].
  apply in_app_or in H. destruct H as [H | H]; [right; exact H|].
  apply repeat_spec in H. left. symmetry. exact H.
Qed.

(** Whatever the number of players, the slots of a generated round hold
    usernames of the players handed in, or BYE. *)
Lemma index_generatePairings_slots (rng : Shuffle) (ws : list Player) :
  incl (slots (IndexJs.generatePairings rng ws)) ("BYE" :: map username ws).
Proof.
  unfold IndexJs.generatePairings. rewrite pairings_loop_all.
  intros u Hu. unfold slots in Hu. apply in_flat_map in Hu.
  destruct Hu as (m & Hm & Hu). apply in_map_iff in Hm. destruct Hm as (i & <- & _).
  cbn [pending_match p1 p2] in Hu.
  assert (Hpad : In u ("BYE" :: map username (pad (rng ws)))).
  { destruct Hu as [<- | [<- | []]]; apply at_index_name. }
  apply pad_names in Hpad. destruct Hpad as [<- | Hpad]; [left; reflexivity|].
  right. apply in_map_iff in Hpad. destruct Hpad as (p & <- & Hp).
  apply in_map. apply (Permutation_in _ (Permutation_sym (shuffle_perm rng ws))).
  exact Hp.
Qed.

Lemma index_generatePairings_nonempty (rng : Shuffle) (ws : list Player) :
  IndexJs.generatePairings rng ws <> [].
Proof.
  unfold IndexJs.generatePairings. rewrite pairings_loop_all, pad_length.
  pose proof (ceil2_above (length (rng ws))) as Ha.
  destruct (ceil2_is_power (length (rng ws))) as [k Hk].
  assert (1 <= ceil2 (length (rng ws))).
  { rewrite Hk. pose proof (Nat.pow_nonzero 2 k). lia. }
  assert (H1 : 1 <= (ceil2 (length (rng ws)) + 1) / 2).
  { apply Nat.div_le_lower_bound; lia. }
  destruct ((ceil2 (length (rng ws)) + 1) / 2); [lia|]. discriminate.
Qed.





End BracketMembership.

(** ** Joining late *)

Section LateJoin.



End LateJoin.

(** ** Round completion in src/index.js *)

Section RoundCompletion.

Lemma generatePairings_two (rng : Shuffle) (a b : Player) :
  IndexJs.generatePairings rng [a; b] = [mkMatch 1 (username a) (username b) None]
  \/ IndexJs.generatePairings rng [a; b] = [mkMatch 1 (username b) (username a) None].
Proof.
  unfold IndexJs.generatePairings.
  destruct (Permutation_length_2_inv (shuffle_perm rng [a; b])) as [E | E];
    rewrite E; [left | right]; reflexivity.
Qed.

(** C1 (src/index.js). The round check is
    [allComplete && bracket.length > 1], followed by a test on the
    number of matches of the new round, not on the number of winners.
    - A round of one match that is complete leaves exactly one winner,
      yet no champion is announced and the tournament stays active
      (first three statements, on the two-player game).
    - A round of two matches that is complete leaves two winners; the
      generator is called on them, and the first slot of the match it
      returns is announced as champion at once, the tournament is made
      inactive and the match between the two is left unplayed
      (remaining statements, whatever the shuffle).
    The second program of part_001 decides on the number of winners, see
    [variantB_round_completion]. *)
Theorem round_completion_index :
  (let st := IndexJs.run initialState two_player_game in
   allComplete (bracket st) = true
   /\ winners_of (participants st) (bracket st) = [alice]
   /\ isActive st = true
   /\ snd (IndexJs.step (IndexJs.run initialState two_player_signup)
             (InteractionCreate (updatewinner identity_order alice)))
      = [ReplyAdvanced "alice"; PostEdited])
  /\ forall rng : Shuffle,
       let st := IndexJs.run initialState four_player_game in
       let after := IndexJs.interactionCreate (updatewinner rng bob) st in
       bracket st = [mkMatch 1 "alice" "dave" (Some "alice");
                     mkMatch 2 "bob" "carol" None]
       /\ isActive (fst after) = false
       /\ ((bracket (fst after) = [mkMatch 1 "alice" "bob" None]
            /\ snd after = [ReplyAdvanced "bob"; FollowUpChampion "alice"; PostEdited])
           \/ (bracket (fst after) = [mkMatch 1 "bob" "alice" None]
               /\ snd after = [ReplyAdvanced "bob"; FollowUpChampion "bob"; PostEdited])).
Proof.
  split; [cbv zeta; repeat split; reflexivity|].
  intros rng st after.
  assert (E : st = mkState true (Some "c1") (Some "m1") [alice; bob; carol; dave]
                     (Some (mkDetails (Some "cup") (Some "pie") "None" "Web App"))
                     [mkMatch 1 "alice" "dave" (Some "alice");
                      mkMatch 2 "bob" "carol" None]) by reflexivity.
  split; [rewrite E; reflexivity|].
  unfold after. rewrite E. clear E st after.
  unfold IndexJs.interactionCreate, IndexJs.advance, IndexJs.updateTournamentPost.
  cbn -[IndexJs.generatePairings].
  destruct (generatePairings_two rng alice bob) as [G | G]; rewrite G; cbn.
  - split; [reflexivity|]. left. split; reflexivity.
  - split; [reflexivity|]. right. split; reflexivity.
Qed.

End RoundCompletion.

(** ** Convergence in src/index.js *)

Section Convergence.

Lemma index_post_outputs (rng : Shuffle) (ok : bool) (st : TournamentState) :
  ~ announces_champion (snd (IndexJs.updateTournamentPost rng ok st)).
Proof.
  unfold IndexJs.updateTournamentPost, announces_champion.
  destruct (falsy (messageId st) || falsy (channelId st)); [intros [w []]|].
  destruct ok; cbn [negb snd]; intros [w [H | []]]; discriminate H.
Qed.

(** Once the only match is decided, no event changes the round or the
    status any more, and none is answered with a champion. *)
Lemma decided_step (st : TournamentState) (e : Event) :
  decided st ->
  decided (fst (IndexJs.step st e))
  /\ ~ announces_champion (snd (IndexJs.step st e)).
Proof.
  intros [A B]. destruct e as [req | r | ev]; cbn [IndexJs.step].
  - unfold startTournament. rewrite A. cbn [fst snd].
    split; [split; assumption|]. intros [w [H | []]]. discriminate H.
  - unfold IndexJs.messageReactionAdd.
    assert (K : decided st /\ ~ announces_champion (@nil Output)).
    { split; [split; assumption|]. intros [w []]. }
    destruct (not_a_signup r st); [exact K|].
    rewrite A. cbn [negb].
    destruct (fetchedUser r) as [q|]; [|exact K].
    destruct (already_joined (participants st) (id q)); cbn [negb]; [exact K|].
    pose proof (updateTournamentPost_frame (reaction_rng r) (post_fetch_ok r)
                  (set_participants
                     (participants st ++ [mkPlayer (id q) (username q)]) st))
      as (Fa & _ & _ & _ & _ & Fb).
    pose proof (index_post_outputs (reaction_rng r) (post_fetch_ok r)
                  (set_participants
                     (participants st ++ [mkPlayer (id q) (username q)]) st)) as Fo.
    destruct (IndexJs.updateTournamentPost _ _ _) as [s o].
    cbn [fst snd] in *. cbn [set_participants isActive bracket] in Fa, Fb.
    split.
    + split; [congruence|]. rewrite Fb; [exact B|]. rewrite B. discriminate.
    + intros [w [H | H]]; [discriminate H|]. apply Fo. exists w. exact H.
  - unfold IndexJs.interactionCreate.
    assert (K : decided st /\ ~ announces_champion (@nil Output)).
    { split; [split; assumption|]. intros [w []]. }
    destruct (isChatInputCommand ev); cbn [negb]; [|exact K].
    destruct (String.eqb (commandName ev) "updatewinner"); cbn [negb]; [|exact K].
    rewrite A, B. cbn.
    split; [split; assumption|]. intros [w [H | []]]. discriminate H.
Qed.

Lemma decided_forever (st : TournamentState) (es : list Event) :
  decided st ->
  decided (IndexJs.run st es) /\ ~ announces_champion (IndexJs.trace st es).
Proof.
  revert st. induction es as [|e es IH]; intros st D.
  - split; [exact D|]. intros [w []].
  - destruct (decided_step st e D) as [D' O].
    destruct (IH _ D') as [D'' O'].
    cbn [IndexJs.run fold_left IndexJs.trace]. split; [exact D''|].
    intros [w H]. apply in_app_or in H.
    destruct H as [H | H]; [apply O | apply O']; exists w; exact H.
Qed.

Lemma index_run_app (st : TournamentState) (es fs : list Event) :
  IndexJs.run st (es ++ fs) = IndexJs.run (IndexJs.run st es) fs.
Proof. apply fold_left_app. Qed.

Lemma index_trace_app (st : TournamentState) (es fs : list Event) :
  IndexJs.trace st (es ++ fs)
  = IndexJs.trace st es ++ IndexJs.trace (IndexJs.run st es) fs.
Proof.
  revert st. induction es as [|e es IH]; intros st; [reflexivity|].
  cbn [app IndexJs.trace IndexJs.run fold_left].
  rewrite IH, app_assoc. reflexivity.
Qed.

(** C2 (src/index.js). With a roster of two the first round is one
    match, and [ceil (log2 2)] is 1; once that match is decided the
    program never announces a champion and never leaves the active
    status, whatever is delivered afterwards.  With a roster of four,
    where [ceil (log2 4)] is 2, the tournament is closed with a
    champion as soon as the first round is complete.  Both come from
    the round check [allComplete && bracket.length > 1] followed by
    [bracket.length === 1]; the second program of part_001 converges as
    claimed, see [variantB_convergence]. *)
Theorem no_convergence_index :
  (Nat.log2_up 2 = 1
   /\ forall es : list Event,
        isActive (IndexJs.run initialState (two_player_game ++ es)) = true
        /\ ~ announces_champion (IndexJs.trace initialState (two_player_game ++ es)))
  /\ (Nat.log2_up 4 = 2
      /\ forall rng : Shuffle,
           let es := four_player_game ++ [InteractionCreate (updatewinner rng bob)] in
           length (bracket (IndexJs.run initialState four_player_game)) = 2
           /\ isActive (IndexJs.run initialState es) = false
           /\ announces_champion (IndexJs.trace initialState es)).
Proof.
  split; split; [reflexivity| |reflexivity|].
  - intros es. rewrite index_run_app, index_trace_app.
    assert (D : decided (IndexJs.run initialState two_player_game))
      by (split; reflexivity).
    destruct (decided_forever _ es D) as [[A _] O].
    split; [exact A|].
    intros [w H]. apply in_app_or in H. destruct H as [H | H].
    + cbn in H. repeat (destruct H as [H | H]; [discriminate H|]). exact H.
    + apply O. exists w. exact H.
  - intros rng es. split; [reflexivity|].
    unfold es. rewrite index_run_app, index_trace_app.
    set (st := IndexJs.run initialState four_player_game).
    assert (E : st = mkState true (Some "c1") (Some "m1") [alice; bob; carol; dave]
                       (Some (mkDetails (Some "cup") (Some "pie") "None" "Web App"))
                       [mkMatch 1 "alice" "dave" (Some "alice");
                        mkMatch 2 "bob" "carol" None]) by reflexivity.
    rewrite E. clear E st.
    cbn [IndexJs.run fold_left IndexJs.trace IndexJs.step].
    rewrite app_nil_r.
    unfold IndexJs.interactionCreate, IndexJs.advance, IndexJs.updateTournamentPost.
    cbn -[IndexJs.generatePairings IndexJs.trace].
    destruct (generatePairings_two rng alice bob) as [G | G]; rewrite G;
      cbn -[IndexJs.trace].
    + split; [reflexivity|]. exists "alice". apply in_or_app. right. cbn. auto.
    + split; [reflexivity|]. exists "bob". apply in_or_app. right. cbn. auto.
Qed.

End Convergence.

(** ** The programs of src/unnamed/part_001 *)

Section LaterRevisions.

(** From two players on the guarded generators build the same round as
    [src/index.js]; [VariantA] only adds the winners of the BYE matches. *)
Lemma variant_generatePairings_round (rng : Shuffle) (players : list Player) :
  2 <= length players ->
  let n := length players in
  (length (VariantA.generatePairings rng players) = ceil2 n / 2
   /\ Permutation (slots (VariantA.generatePairings rng players))
        (map username players ++ repeat "BYE" (ceil2 n - n))
   /\ numbered (VariantA.generatePairings rng players))
  /\ VariantB.generatePairings rng players = IndexJs.generatePairings rng players.
Proof.
  intros Hn n.
  assert (G : (length players <? 2) = false) by (apply Nat.ltb_ge; exact Hn).
  unfold VariantA.generatePairings, VariantB.generatePairings. rewrite G.
  split; [|reflexivity].
  destruct (generated_round preresolved_match
              (fun _ _ => eq_refl) (fun _ _ => eq_refl) (fun _ _ => eq_refl)
              rng players Hn) as (Hlen & Hperm & Hids).
  split; [exact Hlen|]. split; [exact Hperm|exact Hids].
Qed.

Lemma variantA_generatePairings_ok (rng : Shuffle) (ps : list Player) :
  Forall winner_in_slots (VariantA.generatePairings rng ps).
Proof.
  unfold VariantA.generatePairings. destruct (length ps <? 2); [constructor|].
  apply pairings_loop_Forall. apply preresolved_match_ok.
Qed.

Lemma variantB_generatePairings_ok (rng : Shuffle) (ps : list Player) :
  Forall winner_in_slots (VariantB.generatePairings rng ps).
Proof.
  unfold VariantB.generatePairings. destruct (length ps <? 2); [constructor|].
  apply pairings_loop_Forall. apply pending_match_ok.
Qed.

Lemma champion_match_ok (w : string) :
  winner_in_slots (mkMatch 1 w "CHAMPION" (Some w)).
Proof. intros w' [= <-]. left. reflexivity. Qed.

Lemma variantA_post_ok (rng : Shuffle) (ok : bool) (st : TournamentState) :
  winners_in_slots st ->
  winners_in_slots (fst (VariantA.updateTournamentPost rng ok st)).
Proof.
  intros H. unfold VariantA.updateTournamentPost.
  destruct (falsy (messageId st) || falsy (channelId st)); [exact H|].
  destruct ok; cbn [negb fst]; [|exact H].
  destruct ((length (bracket st) =? 0) && (1 <? length (participants st)) && isActive st);
    [apply variantA_generatePairings_ok|exact H].
Qed.

Lemma variantB_post_ok (rng : Shuffle) (ok : bool) (st : TournamentState) :
  winners_in_slots st ->
  winners_in_slots (fst (VariantB.updateTournamentPost rng ok st)).
Proof.
  intros H. unfold VariantB.updateTournamentPost.
  destruct (falsy (messageId st) || falsy (channelId st)); [exact H|].
  destruct ok; cbn [negb fst]; [|exact H].
  destruct ((length (bracket st) =? 0) && (1 <? length (participants st)) && isActive st);
    [apply variantB_generatePairings_ok|exact H].
Qed.

Lemma variantA_advance_ok (rng : Shuffle) (st : TournamentState) :
  winners_in_slots st -> winners_in_slots (fst (VariantA.advance rng st)).
Proof.
  intros H. unfold VariantA.advance.
  destruct (allComplete (bracket st)); [|exact H].
  destruct (VariantA.roundWinners (bracket st)) as [|w [|w' ws]]; [exact H| |].
  - constructor; [apply champion_match_ok|constructor].
  - apply variantA_generatePairings_ok.
Qed.

Lemma variantB_advance_ok (rng : Shuffle) (st : TournamentState) :
  winners_in_slots st -> winners_in_slots (fst (VariantB.advance rng st)).
Proof.
  intros H. unfold VariantB.advance.
  destruct (allComplete (bracket st)); [|exact H].
  destruct (winners_of (participants st) (bracket st)) as [|w [|w' ws]]; [exact H| |].
  - constructor; [apply champion_match_ok|constructor].
  - apply variantB_generatePairings_ok.
Qed.

Lemma variantA_step_ok (st : TournamentState) (e : Event) :
  winners_in_slots st -> winners_in_slots (fst (VariantA.step st e)).
Proof.
  intros H. destruct e as [req | r | ev]; cbn [VariantA.step].
  - unfold VariantA.startTournament.
    destruct (isActive st); [exact H|].
    destruct (channel_ok req); cbn [negb]; [|exact H].
    destruct (posted req); constructor.
  - unfold VariantA.messageReactionAdd.
    destruct (not_a_signup r st || negb (isActive st)); [exact H|].
    destruct (already_joined (participants st) (user_id r)); cbn [negb]; [exact H|].
    destruct (fetchedUser r) as [q|]; [|exact H].
    set (st1 := set_participants _ st).
    assert (H2 : winners_in_slots
                   (if (2 <=? length (participants st1)) && (length (bracket st1) =? 0)
                    then set_bracket
                           (VariantA.generatePairings (reaction_rng r) (participants st1))
                           st1
                    else st1)).
    { destruct ((2 <=? length (participants st1)) && (length (bracket st1) =? 0));
        [apply variantA_generatePairings_ok|exact H]. }
    pose proof (variantA_post_ok (reaction_rng r) (post_fetch_ok r) _ H2) as G.
    destruct (VariantA.updateTournamentPost _ _ _) as [s o]. exact G.
  - unfold VariantA.interactionCreate.
    destruct (isChatInputCommand ev); cbn [negb]; [|exact H].
    destruct (String.eqb (commandName ev) "endtournament").
    { destruct (isAdmin ev); cbn [negb]; [|exact H].
      destruct (isActive st); cbn [negb]; [constructor|exact H]. }
    destruct (String.eqb (commandName ev) "updatewinner"); [|exact H].
    destruct (negb (isAdmin ev) || negb (isActive st)
              || (length (participants st) <? 2) || (length (bracket st) =? 0));
      [exact H|].
    destruct (declare_loop VariantA.reply_for (username (winner_option ev)) (bracket st))
      as [[b reply]|] eqn:D; [|exact H].
    assert (Hb : winners_in_slots (set_bracket b st)).
    { unfold winners_in_slots. cbn [set_bracket bracket].
      eapply declare_loop_ok; eauto. }
    pose proof (variantA_advance_ok (interaction_rng ev) _ Hb) as G1.
    destruct (VariantA.advance (interaction_rng ev) (set_bracket b st)) as [s1 o1].
    cbn [fst] in G1.
    pose proof (variantA_post_ok (interaction_rng ev) (interaction_post_ok ev) _ G1) as G2.
    destruct (VariantA.updateTournamentPost _ _ s1) as [s2 o2]. exact G2.
Qed.

Lemma variantB_step_ok (st : TournamentState) (e : Event) :
  winners_in_slots st -> winners_in_slots (fst (VariantB.step st e)).
Proof.
  intros H. destruct e as [req | r | ev]; cbn [VariantB.step].
  - apply startTournament_ok. exact H.
  - unfold VariantB.messageReactionAdd.
    destruct (not_a_signup r st); [exact H|].
    destruct (isActive st); cbn [negb]; [|exact H].
    destruct (fetchedUser r) as [q|]; [|exact H].
    destruct (already_joined (participants st) (id q)); cbn [negb]; [exact H|].
    pose proof (variantB_post_ok (reaction_rng r) (post_fetch_ok r)
                  (set_participants
                     (participants st ++ [mkPlayer (id q) (username q)]) st) H) as G.
    destruct (VariantB.updateTournamentPost _ _ _) as [s o]. exact G.
  - unfold VariantB.interactionCreate.
    destruct (isChatInputCommand ev); cbn [negb]; [|exact H].
    destruct (String.eqb (commandName ev) "endtournament").
    { destruct (isAdmin ev); cbn [negb]; [|exact H].
      destruct (isActive st); cbn [negb]; [constructor|exact H]. }
    destruct (String.eqb (commandName ev) "updatewinner"); [|exact H].
    destruct (isAdmin ev); cbn [negb]; [|exact H].
    destruct (isActive st); cbn [negb]; [|exact H].
    destruct ((length (participants st) <? 2) || (length (bracket st) =? 0)); [exact H|].
    destruct (declare_loop VariantB.reply_for (username (winner_option ev)) (bracket st))
      as [[b reply]|] eqn:D; [|exact H].
    assert (Hb : winners_in_slots (set_bracket b st)).
    { unfold winners_in_slots. cbn [set_bracket bracket].
      eapply declare_loop_ok; eauto. }
    pose proof (variantB_advance_ok (interaction_rng ev) _ Hb) as G1.
    destruct (VariantB.advance (interaction_rng ev) (set_bracket b st)) as [s1 o1].
    cbn [fst] in G1.
    pose proof (variantB_post_ok (interaction_rng ev) (interaction_post_ok ev) _ G1) as G2.
    destruct (VariantB.updateTournamentPost _ _ s1) as [s2 o2]. exact G2.
Qed.

(** The invariant of C7 in the two later programs: BYE matches resolved
    at generation and the synthetic champion match respect it too. *)
Lemma variants_winner_is_a_slot :
  (forall st, VariantA.reachable st -> winners_in_slots st)
  /\ (forall st, VariantB.reachable st -> winners_in_slots st).
Proof.
  split; intros st R.
  - induction R as [|st e R IH]; [constructor|]. apply variantA_step_ok. exact IH.
  - induction R as [|st e R IH]; [constructor|]. apply variantB_step_ok. exact IH.
Qed.

(** Sign-ups outside an active tournament are dropped silently in the
    later programs as well. *)
Lemma variants_join_when_inactive (st : TournamentState) (r : Reaction) :
  isActive st = false ->
  VariantA.messageReactionAdd r st = (st, [])
  /\ VariantB.messageReactionAdd r st = (st, []).
Proof.
  intros H. unfold VariantA.messageReactionAdd, VariantB.messageReactionAdd.
  rewrite H. cbn [negb]. rewrite orb_true_r.
  destruct (not_a_signup r st); split; reflexivity.
Qed.

(** The round check of the second program of part_001: one winner left
    closes the tournament with that winner, two or more start the next
    round from exactly these winners and announce no champion. *)
Lemma variantB_round_completion (rng : Shuffle) (st : TournamentState) :
  allComplete (bracket st) = true ->
  let ws := winners_of (participants st) (bracket st) in
  (forall w, ws = [w] ->
     VariantB.advance rng st
     = (set_isActive false (set_bracket [VariantB.champion_match (username w)] st),
        [FollowUpChampion (username w)]))
  /\ (2 <= length ws ->
      fst (VariantB.advance rng st) = set_bracket (VariantB.generatePairings rng ws) st
      /\ isActive (fst (VariantB.advance rng st)) = isActive st
      /\ ~ announces_champion (snd (VariantB.advance rng st))).
Proof.
  intros C ws. unfold VariantB.advance. rewrite C. fold ws. split.
  - intros w ->. reflexivity.
  - intros L. destruct ws as [|w [|w' ws']]; cbn [length] in L; [lia|lia|].
    cbn [fst snd]. repeat split.
    intros [x [H | []]]. discriminate H.
Qed.

Lemma variantA_post_frame (rng : Shuffle) (ok : bool) (st : TournamentState) :
  bracket st <> [] ->
  fst (VariantA.updateTournamentPost rng ok st) = st.
Proof.
  intros B. unfold VariantA.updateTournamentPost.
  destruct (falsy (messageId st) || falsy (channelId st)); [reflexivity|].
  destruct ok; cbn [negb fst]; [|reflexivity].
  destruct (bracket st) as [|m b]; [congruence|reflexivity].
Qed.

(** A late sign-up in the first program of part_001: the bracket is
    generated in the handler itself, and only while it is empty. *)
Lemma variantA_late_join_keeps_round (st : TournamentState) (r : Reaction) (q : Player) :
  isActive st = true ->
  not_a_signup r st = false ->
  fetchedUser r = Some q ->
  already_joined (participants st) (user_id r) = false ->
  bracket st <> [] ->
  let st' := fst (VariantA.messageReactionAdd r st) in
  participants st' = participants st ++ [mkPlayer (id q) (username q)]
  /\ bracket st' = bracket st.
Proof.
  intros A N F J B st'. unfold st', VariantA.messageReactionAdd.
  rewrite N, A, F, J. cbn [negb orb].
  assert (G : (length (bracket (set_participants
                                  (participants st ++ [mkPlayer (id q) (username q)]) st))
               =? 0) = false).
  { cbn [set_participants bracket]. apply Nat.eqb_neq.
    destruct (bracket st); [congruence|discriminate]. }
  rewrite G, andb_false_r.
  pose proof (variantA_post_frame (reaction_rng r) (post_fetch_ok r)
                (set_participants
                   (participants st ++ [mkPlayer (id q) (username q)]) st) B) as Fr.
  destruct (VariantA.updateTournamentPost _ _ _) as [s o].
  cbn [fst] in *. subst s. split; reflexivity.
Qed.

(** The second program of part_001 turns a declaration for a player
    without an open match down without touching the state, whichever of
    its guards answers. *)
Lemma variantB_declareWinner_no_match (st : TournamentState) (ev : Interaction) :
  isChatInputCommand ev = true ->
  commandName ev = "updatewinner" ->
  in_no_unresolved_match (username (winner_option ev)) (bracket st) ->
  fst (VariantB.interactionCreate ev st) = st
  /\ (isAdmin ev = true -> isActive st = true ->
      2 <= length (participants st) -> bracket st <> [] ->
      snd (VariantB.interactionCreate ev st)
      = [ReplyNoActiveMatch (username (winner_option ev))]).
Proof.
  intros Hc Hn Hx. unfold VariantB.interactionCreate.
  rewrite Hc, Hn, (declare_loop_none _ _ _ Hx). cbn [negb String.eqb Ascii.eqb Bool.eqb].
  cbn match. split.
  - destruct (isAdmin ev); cbn [negb]; [|reflexivity].
    destruct (isActive st); cbn [negb]; [|reflexivity].
    destruct ((length (participants st) <? 2) || (length (bracket st) =? 0));
      reflexivity.
  - intros -> -> Hp Hb. cbn [negb].
    assert (G1 : (length (participants st) <? 2) = false) by (apply Nat.ltb_ge; exact Hp).
    assert (G2 : (length (bracket st) =? 0) = false).
    { apply Nat.eqb_neq. destruct (bracket st); [congruence|discriminate]. }
    rewrite G1, G2. reflexivity.
Qed.

(** Both programs of part_001 read the username of the declared winner
    and nothing else of that user. *)
Lemma variants_declareWinner_by_username
    (st : TournamentState) (ev : Interaction) (q q' : Player) :
  username q = username q' ->
  VariantA.interactionCreate (with_winner ev q) st
  = VariantA.interactionCreate (with_winner ev q') st
  /\ VariantB.interactionCreate (with_winner ev q) st
     = VariantB.interactionCreate (with_winner ev q') st.
Proof.
  intros Hu. unfold VariantA.interactionCreate, VariantB.interactionCreate, with_winner.
  cbn [isChatInputCommand commandName isAdmin winner_option interaction_rng
         interaction_post_ok].
  rewrite Hu. split; reflexivity.
Qed.

End LaterRevisions.

(** ** Convergence of the second program of part_001 *)

Section VariantBConvergence.

Variable ps : list Player.
Hypothesis roster_size : 2 <= length ps.
Hypothesis names_nonempty : ~ In "" (map username ps).

Let names : list string := map username ps.

Lemma name_truthy (w : string) : In w names -> falsy (Some w) = false.
Proof.
  intros H. cbn [falsy]. apply String.eqb_neq. intros ->. exact (names_nonempty H).
Qed.

(** With winners taken from the roster, "every winner is non-null" and
    "no match is pending" say the same. *)
Lemma allComplete_pending (b : list Match) :
  Forall (fun m => forall w, winner m = Some w -> In w names) b ->
  allComplete b = (length (pending b) =? 0).
Proof.
  induction 1 as [|m b Hm Hb IH]; [reflexivity|].
  unfold allComplete, pending in *. cbn [forallb filter].
  destruct (winner m) as [w|] eqn:W.
  - rewrite (name_truthy w (Hm w eq_refl)). cbn [not_null andb]. exact IH.
  - reflexivity.
Qed.

Lemma declare_loop_some reply (w : string) (b : list Match) :
  (exists m, In m b /\ eligible w m = true) ->
  exists b' r, declare_loop reply w b = Some (b', r).
Proof.
  intros (m & Hin & He).
  destruct (declare_loop reply w b) as [[b' r]|] eqn:D; [eauto|].
  apply declare_loop_not_found in D. rewrite Forall_forall in D.
  rewrite (D m Hin) in He. discriminate.
Qed.

(** Recording a winner from the roster takes one match off the pending
    ones and keeps the shape of the round. *)
Lemma declare_loop_round reply (w : string) (b b' : list Match) (r : Output) :
  In w names ->
  declare_loop reply w b = Some (b', r) ->
  length b' = length b
  /\ (Forall (fun m => In (p1 m) names) b -> Forall (fun m => In (p1 m) names) b')
  /\ (Forall (fun m => forall u, winner m = Some u -> In u names) b ->
      Forall (fun m => forall u, winner m = Some u -> In u names) b')
  /\ S (length (pending b')) = length (pending b).
Proof.
  intros Hw D. apply declare_loop_found in D.
  destruct D as (pre & m & post & -> & _ & Hm & -> & _).
  split; [rewrite !length_app; reflexivity|]. split; [|split].
  - rewrite !Forall_app. intros (H1 & H2). split; [exact H1|].
    inversion H2; subst. constructor; assumption.
  - rewrite !Forall_app. intros (H1 & H2). split; [exact H1|].
    inversion H2; subst. constructor; [|assumption].
    intros u [= <-]. exact Hw.
  - unfold pending. rewrite !filter_app, !length_app. cbn [filter].
    unfold eligible in Hm. apply andb_true_iff in Hm. destruct Hm as [Hm _].
    rewrite Hm. cbn [set_winner winner]. rewrite (name_truthy w Hw).
    cbn [length]. lia.
Qed.

(** On a complete round whose winners are on the roster, every match
    contributes its winner. *)
Lemma winners_found (b : list Match) :
  Forall (fun m => forall u, winner m = Some u -> In u names) b ->
  allComplete b = true ->
  length (winners_of ps b) = length b
  /\ Forall (fun p => In p ps) (winners_of ps b).
Proof.
  induction 1 as [|m b Hm Hb IH]; intros C; [split; [reflexivity|constructor]|].
  unfold allComplete in C. cbn [forallb] in C. apply andb_true_iff in C.
  destruct C as [Cm Cb]. destruct (IH Cb) as [IH1 IH2].
  unfold winners_of, defined in *. cbn [map flat_map].
  destruct (winner m) as [u|] eqn:W; [|discriminate Cm].
  cbn [find_by_username].
  destruct (find (fun p => String.eqb (username p) u) ps) as [p|] eqn:F.
  - cbn [app length]. split; [f_equal; exact IH1|].
    constructor; [|exact IH2]. apply find_some in F. tauto.
  - exfalso. specialize (Hm u eq_refl). unfold names in Hm.
    apply in_map_iff in Hm. destruct Hm as (p & Hp & Hin).
    apply (find_none _ _ F) in Hin. rewrite Hp, String.eqb_refl in Hin. discriminate.
Qed.

Lemma pow2_pos (k : nat) : 1 <= 2 ^ k.
Proof. pose proof (Nat.pow_nonzero 2 k). lia. Qed.

Lemma pow2_step (k : nat) : 0 < k -> 2 ^ k = 2 * 2 ^ (k - 1).
Proof.
  intros H. destruct k as [|k]; [lia|].
  rewrite Nat.pow_succ_r'. replace (S k - 1) with k by lia. reflexivity.
Qed.

Lemma ceil2_pow2 (k : nat) : ceil2 (2 ^ k) = 2 ^ k.
Proof. unfold ceil2. rewrite Nat.log2_up_pow2 by lia. reflexivity. Qed.

Lemma pending_fresh (arr : list Player) (l : list nat) :
  length (pending (map (pending_match arr) l)) = length l.
Proof.
  induction l as [|i l IH]; [reflexivity|].
  unfold pending in *. cbn [map filter pending_match winner falsy length].
  f_equal. exact IH.
Qed.

(** The round generated from players of the roster: its first slots are
    never BYE, and every match is pending. *)
Lemma fresh_round (rng : Shuffle) (ws : list Player) :
  2 <= length ws ->
  Forall (fun p => In p ps) ws ->
  let b := VariantB.generatePairings rng ws in
  length b = ceil2 (length ws) / 2
  /\ Forall (fun m => In (p1 m) names) b
  /\ Forall (fun m => forall u, winner m = Some u -> In u names) b
  /\ length (pending b) = length b.
Proof.
  intros Hn Hws b.
  assert (G : (length ws <? 2) = false) by (apply Nat.ltb_ge; exact Hn).
  unfold b, VariantB.generatePairings. rewrite G.
  destruct (round_of_padded pending_match rng ws Hn) as [Hr Harr].
  rewrite Hr. rewrite length_map, length_seq.
  assert (Hlen : length (rng ws) = length ws).
  { symmetry. apply Permutation_length, shuffle_perm. }
  split; [reflexivity|]. split; [|split].
  - apply Forall_forall. intros m Hm. apply in_map_iff in Hm.
    destruct Hm as (i & <- & Hi). apply in_seq in Hi.
    cbn [pending_match p1]. unfold at_index, pad.
    pose proof (ceil2_half_below (length ws) Hn) as Hh.
    rewrite app_nth1 by lia.
    assert (Hin : In (nth i (rng ws) BYE) ws).
    { apply (Permutation_in _ (Permutation_sym (shuffle_perm rng ws))).
      apply nth_In. lia. }
    rewrite Forall_forall in Hws. unfold names. apply in_map. apply Hws. exact Hin.
  - apply Forall_forall. intros m Hm. apply in_map_iff in Hm.
    destruct Hm as (i & <- & _). intros u H. discriminate H.
  - rewrite pending_fresh, length_seq. reflexivity.
Qed.

Lemma variantB_post_frame (rng : Shuffle) (ok : bool) (st : TournamentState) :
  bracket st <> [] ->
  fst (VariantB.updateTournamentPost rng ok st) = st
  /\ filter is_round_end (snd (VariantB.updateTournamentPost rng ok st)) = []
  /\ filter is_champion (snd (VariantB.updateTournamentPost rng ok st)) = [].
Proof.
  intros B. unfold VariantB.updateTournamentPost.
  destruct (falsy (messageId st) || falsy (channelId st)); [repeat split|].
  destruct ok; cbn [negb fst snd]; [|repeat split].
  destruct (bracket st) as [|m b]; [congruence|].
  cbn [length Nat.eqb andb]. repeat split.
Qed.

(** The round check of the second program, on a round in progress. *)
Lemma advance_mid_round (rng : Shuffle) (st : TournamentState) (k : nat) :
  participants st = ps ->
  length (bracket st) = 2 ^ k ->
  Forall (fun m => forall u, winner m = Some u -> In u names) (bracket st) ->
  (0 < length (pending (bracket st)) -> VariantB.advance rng st = (st, []))
  /\ (length (pending (bracket st)) = 0 -> 0 < k ->
      exists b,
        VariantB.advance rng st = (set_bracket b st, [FollowUpRoundComplete (length b)])
        /\ length b = 2 ^ (k - 1)
        /\ Forall (fun m => In (p1 m) names) b
        /\ Forall (fun m => forall u, winner m = Some u -> In u names) b
        /\ length (pending b) = length b)
  /\ (length (pending (bracket st)) = 0 -> k = 0 ->
      exists w,
        VariantB.advance rng st
        = (set_isActive false (set_bracket [VariantB.champion_match w] st),
           [FollowUpChampion w])).
Proof.
  intros P L W. unfold VariantB.advance.
  rewrite (allComplete_pending _ W), P.
  split; [|split].
  - intros H. destruct (length (pending (bracket st))); [lia|reflexivity].
  - intros H K. rewrite H. cbn [Nat.eqb].
    assert (C : allComplete (bracket st) = true).
    { rewrite (allComplete_pending _ W), H. reflexivity. }
    destruct (winners_found _ W C) as [Hl Hin]. rewrite L in Hl.
    assert (H2 : 2 <= length (winners_of ps (bracket st))).
    { rewrite Hl, (pow2_step k K). pose proof (pow2_pos (k - 1)). lia. }
    destruct (fresh_round rng _ H2 Hin) as (F1 & F2 & F3 & F4).
    exists (VariantB.generatePairings rng (winners_of ps (bracket st))).
    split; [|split; [|split; [exact F2|split; [exact F3|exact F4]]]].
    + destruct (winners_of ps (bracket st)) as [|w [|w' ws]];
        cbn [length] in H2; [lia|lia|reflexivity].
    + rewrite F1, Hl, ceil2_pow2, (pow2_step k K).
      rewrite Nat.mul_comm, Nat.div_mul by lia. reflexivity.
  - intros H K. rewrite H. cbn [Nat.eqb].
    assert (C : allComplete (bracket st) = true).
    { rewrite (allComplete_pending _ W), H. reflexivity. }
    destruct (winners_found _ W C) as [Hl _]. rewrite L, K in Hl. cbn in Hl.
    destruct (winners_of ps (bracket st)) as [|w [|w' ws]]; cbn [length] in Hl;
      [lia| |lia].
    exists (username w). reflexivity.
Qed.

Lemma reply_is_no_announcement (w : string) (b b' : list Match) (r : Output) :
  declare_loop VariantB.reply_for w b = Some (b', r) ->
  is_round_end r = false /\ is_champion r = false.
Proof.
  intros D. apply declare_loop_found in D.
  destruct D as (pre & m & post & _ & _ & _ & _ & ->).
  unfold VariantB.reply_for.
  destruct (String.eqb (p1 m) "BYE" || String.eqb (p2 m) "BYE"); split; reflexivity.
Qed.

(** One valid declaration: it leaves the round with one pending match
    fewer, or closes the round and opens the next one with half as many
    matches, or closes the final and the tournament. *)
Lemma valid_step (k j : nat) (st : TournamentState) (ev : Interaction) :
  mid_round ps k j st ->
  valid_declaration st ev ->
  let st' := fst (VariantB.interactionCreate ev st) in
  let out := snd (VariantB.interactionCreate ev st) in
  (1 < j ->
   mid_round ps k (j - 1) st' /\ rounds_completed out = 0 /\ champions out = 0)
  /\ (j = 1 -> 0 < k ->
      mid_round ps (k - 1) (2 ^ (k - 1)) st'
      /\ rounds_completed out = 1 /\ champions out = 0)
  /\ (j = 1 -> k = 0 ->
      isActive st' = false /\ rounds_completed out = 1 /\ champions out = 1).
Proof.
  intros (A & P & L & S1 & W & J & J1) (C1 & C2 & C3 & Hw & Hm).
  rewrite P in Hw. fold names in Hw.
  destruct (declare_loop_some VariantB.reply_for _ _ Hm) as (b1 & reply & D).
  destruct (declare_loop_round _ _ _ _ _ Hw D) as (L1 & S1' & W1 & J').
  specialize (S1' S1). specialize (W1 W).
  destruct (reply_is_no_announcement _ _ _ _ D) as [R1 R2].
  assert (G1 : (length ps <? 2) = false) by (apply Nat.ltb_ge; exact roster_size).
  assert (G2 : (length (bracket st) =? 0) = false).
  { apply Nat.eqb_neq. rewrite L. pose proof (pow2_pos k). lia. }
  unfold VariantB.interactionCreate.
  rewrite C1, C2, C3, A, P, G1, G2, D. cbn [negb orb String.eqb Ascii.eqb Bool.eqb].
  cbn match.
  set (st1 := set_bracket b1 st).
  assert (P1 : participants st1 = ps) by exact P.
  assert (Lb : length (bracket st1) = 2 ^ k) by (cbn; congruence).
  destruct (advance_mid_round (interaction_rng ev) st1 k P1 Lb W1) as (M1 & M2 & M3).
  cbn [st1 set_bracket bracket] in M1, M2, M3. fold st1 in M1, M2, M3.
  split; [|split].
  - intros Hj. rewrite M1 by lia.
    destruct (variantB_post_frame (interaction_rng ev) (interaction_post_ok ev) st1)
      as (F1 & F2 & F3).
    { cbn. intros E. rewrite E in L1. cbn in L1. pose proof (pow2_pos k). lia. }
    destruct (VariantB.updateTournamentPost _ _ st1) as [s2 o2].
    cbn [fst snd] in *. subst s2.
    split; [|split].
    + unfold mid_round. cbn [st1 set_bracket isActive participants bracket].
      repeat split; auto; try lia.
    + unfold rounds_completed. cbn [filter app]. rewrite R1, F2. reflexivity.
    + unfold champions. cbn [filter app]. rewrite R2, F3. reflexivity.
  - intros Hj K.
    destruct M2 as (b & Eb & Hb1 & Hb2 & Hb3 & Hb4); [lia|exact K|].
    rewrite Eb.
    destruct (variantB_post_frame (interaction_rng ev) (interaction_post_ok ev)
                (set_bracket b st1)) as (F1 & F2 & F3).
    { cbn. intros E. rewrite E in Hb1. cbn in Hb1. pose proof (pow2_pos (k - 1)). lia. }
    destruct (VariantB.updateTournamentPost _ _ (set_bracket b st1)) as [s2 o2].
    cbn [fst snd] in *. subst s2.
    split; [|split].
    + unfold mid_round. cbn [st1 set_bracket isActive participants bracket].
      repeat split; auto; try (rewrite Hb4; exact Hb1). apply pow2_pos.
    + unfold rounds_completed. cbn [filter app is_round_end].
      rewrite R1. cbn [length]. rewrite F2. reflexivity.
    + unfold champions. cbn [filter app is_champion]. rewrite R2, F3. reflexivity.
  - intros Hj K.
    destruct M3 as (w & Ew); [lia|exact K|].
    rewrite Ew.
    destruct (variantB_post_frame (interaction_rng ev) (interaction_post_ok ev)
                (set_isActive false
                   (set_bracket [VariantB.champion_match w] st1))) as (F1 & F2 & F3).
    { cbn. discriminate. }
    destruct (VariantB.updateTournamentPost _ _ _) as [s2 o2].
    cbn [fst snd] in *. subst s2.
    split; [reflexivity|]. split.
    + unfold rounds_completed. cbn [filter app is_round_end].
      rewrite R1. cbn [length]. rewrite F2. reflexivity.
    + unfold champions. cbn [filter app is_champion].
      rewrite R2. cbn [length]. rewrite F3. reflexivity.
Qed.

Lemma filter_witness {A : Type} (f : A -> bool) (l : list A) :
  1 <= length (filter f l) -> exists x, In x l /\ f x = true.
Proof.
  intros H. destruct (filter f l) as [|x l'] eqn:E; [cbn in H; lia|].
  exists x. apply filter_In. rewrite E. left. reflexivity.
Qed.

(** A round in progress always has a valid declaration to go on with. *)
Lemma mid_round_progress (k j : nat) (st : TournamentState) :
  mid_round ps k j st -> exists ev, valid_declaration st ev.
Proof.
  intros (A & P & L & S1 & W & J & J1).
  destruct (filter_witness (fun m => falsy (winner m)) (bracket st)) as (m & Hin & Hf).
  { fold (pending (bracket st)). lia. }
  rewrite Forall_forall in S1. pose proof (S1 m Hin) as Hp.
  apply in_map_iff in Hp. destruct Hp as (q & Hq & Hqin).
  exists (updatewinner identity_order q).
  unfold valid_declaration, updatewinner. cbn.
  repeat split; auto.
  - rewrite P. apply in_map. exact Hqin.
  - exists m. split; [exact Hin|]. unfold eligible.
    rewrite Hf, Hq, String.eqb_refl. reflexivity.
Qed.

Lemma champions_app (a b : list Output) : champions (a ++ b) = champions a + champions b.
Proof. unfold champions. rewrite filter_app, length_app. reflexivity. Qed.

Lemma rounds_completed_app (a b : list Output) :
  rounds_completed (a ++ b) = rounds_completed a + rounds_completed b.
Proof. unfold rounds_completed. rewrite filter_app, length_app. reflexivity. Qed.

(** From a round of [2 ^ k] matches with [j] pending, exactly
    [j + 2 ^ k - 1] valid declarations are possible; the last one closes
    round [k + 1] counted from here and announces the only champion. *)
Lemma convergence_from (evs : list Interaction) :
  forall (k j : nat) (st : TournamentState),
    mid_round ps k j st ->
    valid_play st evs ->
    let es := map InteractionCreate evs in
    length evs <= j + 2 ^ k - 1
    /\ (length evs < j + 2 ^ k - 1 ->
        isActive (VariantB.run st es) = true
        /\ champions (VariantB.trace st es) = 0
        /\ rounds_completed (VariantB.trace st es) <= k
        /\ exists ev, valid_declaration (VariantB.run st es) ev)
    /\ (length evs = j + 2 ^ k - 1 ->
        isActive (VariantB.run st es) = false
        /\ champions (VariantB.trace st es) = 1
        /\ rounds_completed (VariantB.trace st es) = k + 1).
Proof.
  induction evs as [|ev evs IH]; intros k j st M V es.
  - pose proof (pow2_pos k) as Hk.
    destruct M as (A & P & L & S1 & W & J & J1).
    cbn [length]. split; [lia|]. split; [|lia].
    intros _. cbn. repeat split; auto; try lia.
    apply (mid_round_progress k j). repeat split; auto.
  - inversion V as [|? ? ? A Hv V']; subst.
    pose proof (pow2_pos k) as Hk.
    assert (J1 : 1 <= j) by (destruct M as (_ & _ & _ & _ & _ & _ & H); exact H).
    destruct (valid_step k j st ev M Hv) as (T1 & T2 & T3).
    unfold es. cbn [map VariantB.run VariantB.trace fold_left VariantB.step length].
    fold (VariantB.run (fst (VariantB.interactionCreate ev st)) (map InteractionCreate evs)).
    rewrite champions_app, rounds_completed_app.
    destruct (Nat.eq_dec j 1) as [-> | Hj].
    + destruct k as [|k].
      * destruct (T3 eq_refl eq_refl) as (I & R & C).
        destruct evs as [|ev' evs].
        -- cbn [length map VariantB.run VariantB.trace fold_left].
           split; [cbn; lia|]. split; [cbn; lia|]. intros _.
           split; [exact I|]. rewrite C, R. split; reflexivity.
        -- inversion V' as [|? ? ? A' _ _]; subst. congruence.
      * destruct (T2 eq_refl ltac:(lia)) as (M' & R & C).
        replace (S k - 1) with k in M' by lia.
        destruct (IH k (2 ^ k) _ M' V') as (B1 & B2 & B3).
        rewrite Nat.pow_succ_r'. rewrite R, C.
        pose proof (pow2_pos k).
        split; [lia|]. split.
        -- intros Hl. destruct B2 as (I & Ch & Ro & Pr); [lia|].
           rewrite Ch. repeat split; auto; lia.
        -- intros Hl. destruct B3 as (I & Ch & Ro); [lia|].
           rewrite Ch, Ro. repeat split; auto; lia.
    + destruct (T1 ltac:(lia)) as (M' & R & C).
      destruct (IH k (j - 1) _ M' V') as (B1 & B2 & B3).
      rewrite R, C. split; [lia|]. split.
      * intros Hl. destruct B2 as (I & Ch & Ro & Pr); [lia|].
        rewrite Ch. repeat split; auto; lia.
      * intros Hl. destruct B3 as (I & Ch & Ro); [lia|].
        rewrite Ch, Ro. repeat split; auto; lia.
Qed.

(** Convergence, as the second program of part_001 has it. Start from
    the first round of any roster of [n >= 2] players (no empty
    username) and resolve matches by valid declarations, in any order and
    with any winners.  Then no more than [ceil2 n - 1] declarations can
    be made; as long as fewer were made the tournament is active, has no
    champion, has closed fewer than [ceil (log2 n)] rounds and can go
    on; and when [ceil2 n - 1] were made the tournament is over, with
    exactly one champion announced and exactly [ceil (log2 n)] rounds
    closed. *)
Lemma variantB_convergence (rng0 : Shuffle) (st0 : TournamentState) :
  isActive st0 = true ->
  participants st0 = ps ->
  bracket st0 = VariantB.generatePairings rng0 ps ->
  forall evs : list Interaction,
    valid_play st0 evs ->
    let n := length ps in
    let es := map InteractionCreate evs in
    length evs <= ceil2 n - 1
    /\ (length evs < ceil2 n - 1 ->
        isActive (VariantB.run st0 es) = true
        /\ champions (VariantB.trace st0 es) = 0
        /\ rounds_completed (VariantB.trace st0 es) < Nat.log2_up n
        /\ exists ev, valid_declaration (VariantB.run st0 es) ev)
    /\ (length evs = ceil2 n - 1 ->
        isActive (VariantB.run st0 es) = false
        /\ champions (VariantB.trace st0 es) = 1
        /\ rounds_completed (VariantB.trace st0 es) = Nat.log2_up n).
Proof.
  intros A P B evs V n es.
  assert (Hlog : 0 < Nat.log2_up n) by (apply Nat.log2_up_pos; unfold n; lia).
  set (k := Nat.log2_up n - 1).
  assert (Hc : ceil2 n = 2 * 2 ^ k).
  { unfold ceil2, k. rewrite <- Nat.pow_succ_r'. f_equal. lia. }
  assert (Hall : Forall (fun p => In p ps) ps) by (apply Forall_forall; auto).
  destruct (fresh_round rng0 ps roster_size Hall) as (F1 & F2 & F3 & F4).
  fold n in F1. rewrite <- B in F1, F2, F3, F4.
  assert (Hlen : length (bracket st0) = 2 ^ k).
  { rewrite F1, Hc, Nat.mul_comm, Nat.div_mul by lia. reflexivity. }
  assert (M : mid_round ps k (2 ^ k) st0).
  { unfold mid_round. repeat split; auto.
    - rewrite F4. exact Hlen.
    - apply pow2_pos. }
  destruct (convergence_from evs k (2 ^ k) st0 M V) as (C1 & C2 & C3).
  fold es in C2, C3. rewrite Hc.
  pose proof (pow2_pos k).
  split; [lia|]. split.
  - intros Hl. destruct C2 as (I & Ch & Ro & Pr); [lia|].
    repeat split; auto. unfold k in Ro. lia.
  - intros Hl. destruct C3 as (I & Ch & Ro); [lia|].
    repeat split; auto. unfold k in Ro. lia.
Qed.

End VariantBConvergence.

(** Three players in the second program: three declarations, two
    rounds, one champion. *)
Example variantB_three_players :
  let st0 := mkState true (Some "c1") (Some "m1") [alice; bob; carol] None
               (VariantB.generatePairings identity_order [alice; bob; carol]) in
  let es := map InteractionCreate
              [updatewinner identity_order bob;
               updatewinner identity_order alice;
               updatewinner identity_order bob] in
  bracket st0 = [mkMatch 1 "alice" "BYE" None; mkMatch 2 "bob" "carol" None]
  /\ VariantB.run st0 es
     = mkState false (Some "c1") (Some "m1") [alice; bob; carol] None
         [mkMatch 1 "bob" "CHAMPION" (Some "bob")]
  /\ VariantB.trace st0 es
     = [ReplyAdvanced "bob"; PostEdited;
        ReplyAdvancedByBye "alice"; FollowUpRoundComplete 1; PostEdited;
        ReplyAdvanced "bob"; FollowUpChampion "bob"; PostEdited].
Proof. cbv zeta. repeat split; reflexivity. Qed.

(** * Further properties of the code *)

(** ** The pairing generator on every input *)

Section GeneratorEdges.

(** The doubling loop of [generatePairings] ends, for every length
    (zero included), on the least power of two that is at least the
    length. *)
Theorem nextPowerOfTwo_least (len : nat) :
  (exists k, nextPowerOfTwo len = 2 ^ k)
  /\ len <= nextPowerOfTwo len
  /\ (forall k, len <= 2 ^ k -> nextPowerOfTwo len <= 2 ^ k)
  /\ (len <= 1 -> nextPowerOfTwo len = 1).
Proof.
  rewrite nextPowerOfTwo_ceil2. split; [apply ceil2_is_power|].
  split; [apply ceil2_above|]. split; [intros k; apply ceil2_least|].
  intros H. unfold ceil2. rewrite log2_up_small by exact H. reflexivity.
Qed.

Lemma index_generatePairings_pending (rng : Shuffle) (ps : list Player) :
  Forall (fun m => winner m = None) (IndexJs.generatePairings rng ps).
Proof. apply pairings_loop_Forall. intros i. reflexivity. Qed.

(** [generatePairings] of src/index.js on any list, short ones included:
    it always returns at least one match, half the padded length rounded
    up, every match pending and numbered from 1, and no slot holds
    anything but a username it was given or BYE. *)
Theorem generatePairings_any_input (rng : Shuffle) (players : list Player) :
  let round := IndexJs.generatePairings rng players in
  round <> []
  /\ length round = (ceil2 (length players) + 1) / 2
  /\ Forall (fun m => winner m = None) round
  /\ map matchId round = seq 1 (length round)
  /\ incl (slots round) ("BYE" :: map username players).
Proof.
  intros round. split; [apply index_generatePairings_nonempty|].
  split; [|split; [apply index_generatePairings_pending|
                   split; [apply index_generatePairings_numbered|
                           apply index_generatePairings_slots]]].
  unfold round, IndexJs.generatePairings.
  rewrite pairings_loop_all, length_map, length_seq, pad_length.
  rewrite <- (Permutation_length (shuffle_perm rng players)). reflexivity.
Qed.

(** Where the players and the BYEs sit in a round built by a loop body
    that fills the slots from positions [i] and [length - 1 - i]. *)
Lemma round_slot_positions (body : list Player -> nat -> Match)
    (rng : Shuffle) (players : list Player) (i : nat) (m : Match) :
  (forall arr j, p1 (body arr j) = username (at_index arr j)) ->
  (forall arr j, p2 (body arr j) = username (at_index arr (length arr - 1 - j))) ->
  2 <= length players ->
  let arr := pad (rng players) in
  nth_error (pairings_loop body (length arr) 0 arr []) i = Some m ->
  m = body arr i
  /\ In (at_index arr i) players
  /\ (i < ceil2 (length players) - length players ->
      at_index arr (length arr - 1 - i) = BYE)
  /\ (ceil2 (length players) - length players <= i ->
      In (at_index arr (length arr - 1 - i)) players).
Proof.
  intros _ _ Hn arr Hi.
  destruct (round_of_padded body rng players Hn) as [Hr Harr].
  fold arr in Hr, Harr. rewrite Hr in Hi.
  assert (Hlt : i < ceil2 (length players) / 2).
  { assert (H : nth_error (map (body arr) (seq 0 (ceil2 (length players) / 2))) i <> None)
      by congruence.
    apply nth_error_Some in H. rewrite length_map, length_seq in H. exact H. }
  rewrite nth_error_map, nth_error_nth' with (d := 0) in Hi
    by (rewrite length_seq; exact Hlt).
  rewrite seq_nth in Hi by exact Hlt. cbn in Hi. injection Hi as Hm.
  assert (Hlen : length (rng players) = length players).
  { symmetry. apply Permutation_length, shuffle_perm. }
  pose proof (ceil2_half_below (length players) Hn) as Hh.
  pose proof (ceil2_above (length players)) as Ha.
  pose proof (ceil2_even (length players) Hn) as He.
  assert (Hperm : forall p, In p (rng players) -> In p players).
  { intros p. apply Permutation_in, Permutation_sym, shuffle_perm. }
  split; [symmetry; exact Hm|]. unfold at_index, arr, pad.
  rewrite nextPowerOfTwo_ceil2, Hlen.
  split; [|split].
  - rewrite app_nth1 by lia. apply Hperm, nth_In. lia.
  - intros Hp. rewrite length_app, repeat_length, Hlen.
    rewrite app_nth2 by lia. apply nth_repeat.
  - intros Hp. rewrite length_app, repeat_length, Hlen.
    rewrite app_nth1 by lia. apply Hperm, nth_In. lia.
Qed.

(** In a round of src/index.js for two or more players the first slot of
    every match holds a player, the BYEs fill the second slots of the
    first [ceil2 n - n] matches, and every later match pairs two
    players: no match is BYE against BYE. *)
Theorem byes_lead_the_round (rng : Shuffle) (players : list Player)
    (i : nat) (m : Match) :
  2 <= length players ->
  nth_error (IndexJs.generatePairings rng players) i = Some m ->
  let padding := ceil2 (length players) - length players in
  In (p1 m) (map username players)
  /\ (i < padding -> p2 m = "BYE")
  /\ (padding <= i -> In (p2 m) (map username players))
  /\ winner m = None.
Proof.
  intros Hn Hi padding.
  destruct (round_slot_positions pending_match rng players i m
              (fun _ _ => eq_refl) (fun _ _ => eq_refl) Hn Hi)
    as (-> & H1 & H2 & H3).
  cbn [pending_match p1 p2 winner].
  split; [apply in_map; exact H1|]. split; [|split; [|reflexivity]].
  - intros Hp. rewrite (H2 Hp). reflexivity.
  - intros Hp. apply in_map. apply H3. exact Hp.
Qed.

Lemma byes_lead_the_round_witness :
  p2 (mkMatch 1 "alice" "BYE" None) = "BYE".
Proof.
  apply (byes_lead_the_round identity_order [alice; bob; carol] 0
           (mkMatch 1 "alice" "BYE" None)).
  - cbn. lia.
  - reflexivity.
  - cbn. lia.
Defined.

(** The first program of part_001 resolves exactly the matches against
    BYE when it builds a round: for two or more players, none of them
    called BYE, the first [ceil2 n - n] matches come out won by their
    first slot, a player, and all other matches come out pending. *)
Theorem bye_matches_are_preresolved (rng : Shuffle) (players : list Player)
    (i : nat) (m : Match) :
  2 <= length players ->
  ~ In "BYE" (map username players) ->
  nth_error (VariantA.generatePairings rng players) i = Some m ->
  let padding := ceil2 (length players) - length players in
  In (p1 m) (map username players)
  /\ (i < padding -> p2 m = "BYE" /\ winner m = Some (p1 m))
  /\ (padding <= i -> In (p2 m) (map username players) /\ winner m = None).
Proof.
  intros Hn Hbye Hi padding.
  assert (G : (length players <? 2) = false) by (apply Nat.ltb_ge; exact Hn).
  unfold VariantA.generatePairings in Hi. rewrite G in Hi.
  destruct (round_slot_positions preresolved_match rng players i m
              (fun _ _ => eq_refl) (fun _ _ => eq_refl) Hn Hi)
    as (-> & H1 & H2 & H3).
  assert (N1 : String.eqb (username (at_index (pad (rng players)) i)) "BYE" = false).
  { apply String.eqb_neq. intros E. apply Hbye. rewrite <- E. apply in_map. exact H1. }
  unfold preresolved_match. cbn [p1 p2 winner]. rewrite N1.
  split; [apply in_map; exact H1|]. split.
  - intros Hp. rewrite (H2 Hp). split; reflexivity.
  - intros Hp. specialize (H3 Hp). split; [apply in_map; exact H3|].
    assert (N2 : String.eqb
                   (username (at_index (pad (rng players))
                                (length (pad (rng players)) - 1 - i))) "BYE" = false).
    { apply String.eqb_neq. intros E. apply Hbye. rewrite <- E. apply in_map. exact H3. }
    rewrite N2. reflexivity.
Qed.

Lemma bye_matches_are_preresolved_witness :
  VariantA.generatePairings identity_order [alice; bob; carol]
  = [mkMatch 1 "alice" "BYE" (Some "alice"); mkMatch 2 "bob" "carol" None]
  /\ winner (mkMatch 1 "alice" "BYE" (Some "alice")) = Some "alice".
Proof.
  split; [reflexivity|].
  apply (bye_matches_are_preresolved identity_order [alice; bob; carol] 0
           (mkMatch 1 "alice" "BYE" (Some "alice"))).
  - cbn. lia.
  - cbn. intros [E | [E | [E | []]]]; discriminate E.
  - reflexivity.
  - cbn. lia.
Defined.

(** The guarded generators of part_001 return the empty round exactly
    for fewer than two players; from two players on the round has
    [ceil2 n / 2] matches, at least one. *)
Theorem guarded_round_empty_iff (rng : Shuffle) (players : list Player) :
  (VariantA.generatePairings rng players = [] <-> length players < 2)
  /\ (VariantB.generatePairings rng players = [] <-> length players < 2)
  /\ (2 <= length players ->
      length (VariantA.generatePairings rng players) = ceil2 (length players) / 2
      /\ length (VariantB.generatePairings rng players) = ceil2 (length players) / 2
      /\ 1 <= ceil2 (length players) / 2).
Proof.
  assert (P : 2 <= length players -> 1 <= ceil2 (length players) / 2).
  { intros Hn. pose proof (ceil2_even _ Hn). pose proof (ceil2_above (length players)).
    lia. }
  assert (LA : 2 <= length players ->
               length (VariantA.generatePairings rng players)
               = ceil2 (length players) / 2).
  { intros Hn. destruct (variant_generatePairings_round rng players Hn) as [[H _] _].
    exact H. }
  assert (LB : 2 <= length players ->
               length (VariantB.generatePairings rng players)
               = ceil2 (length players) / 2).
  { intros Hn. destruct (variant_generatePairings_round rng players Hn) as [_ ->].
    destruct (generated_round pending_match
                (fun _ _ => eq_refl) (fun _ _ => eq_refl) (fun _ _ => eq_refl)
                rng players Hn) as [H _]. exact H. }
  split; [|split].
  - split.
    + intros E. destruct (Nat.lt_ge_cases (length players) 2) as [H | H]; [exact H|].
      specialize (LA H). specialize (P H). rewrite E in LA. cbn [length] in LA. lia.
    + intros H. apply (guarded_generatePairings_refuses rng players H).
  - split.
    + intros E. destruct (Nat.lt_ge_cases (length players) 2) as [H | H]; [exact H|].
      specialize (LB H). specialize (P H). rewrite E in LB. cbn [length] in LB. lia.
    + intros H. apply (guarded_generatePairings_refuses rng players H).
  - intros Hn. auto.
Qed.

End GeneratorEdges.

(** ** The tournament status in src/index.js *)

Section IndexStatus.

Lemma index_advance_status (rng : Shuffle) (st : TournamentState) :
  isActive st = true ->
  (isActive (fst (IndexJs.advance rng st)) = false
   <-> announces_champion (snd (IndexJs.advance rng st))).
Proof.
  intros A. unfold IndexJs.advance.
  assert (K : isActive st = false <-> announces_champion []).
  { split; [congruence|intros [w []]]. }
  destruct (allComplete (bracket st) && (1 <? length (bracket st))); [|exact K].
  cbn [set_bracket bracket].
  destruct (IndexJs.generatePairings rng (winners_of (participants st) (bracket st)))
    as [|m [|m' b]]; cbn [fst snd set_isActive set_bracket isActive]; try exact K.
  split; [intros _; exists (p1 m); left; reflexivity|reflexivity].
Qed.

Lemma index_reply_plain (w : string) (m : Match) (x : string) :
  IndexJs.reply_for w m <> FollowUpChampion x.
Proof.
  unfold IndexJs.reply_for.
  destruct (String.eqb (p1 m) "BYE" || String.eqb (p2 m) "BYE"); discriminate.
Qed.

(** In src/index.js an active tournament becomes inactive in one way
    only: an event makes it inactive exactly when the handler announces a
    champion.  No launch, sign-up or command ends a tournament otherwise
    (this revision has no command to cancel one). *)
Theorem status_drops_with_champion (st : TournamentState) (e : Event) :
  isActive st = true ->
  (isActive (fst (IndexJs.step st e)) = false
   <-> announces_champion (snd (IndexJs.step st e))).
Proof.
  intros A.
  assert (K : forall o : Output, (forall x, o <> FollowUpChampion x) ->
                isActive st = false <-> announces_champion [o]).
  { intros o Ho. split; [congruence|]. intros [w [H | []]]. destruct (Ho w H). }
  assert (K0 : isActive st = false <-> announces_champion []).
  { split; [congruence|intros [w []]]. }
  destruct e as [req | r | ev]; cbn [IndexJs.step].
  - unfold startTournament. rewrite A. refine (K _ _). discriminate.
  - unfold IndexJs.messageReactionAdd.
    destruct (not_a_signup r st); [exact K0|].
    rewrite A. cbn [negb].
    destruct (fetchedUser r) as [q|]; [|exact K0].
    destruct (already_joined (participants st) (id q)); cbn [negb]; [exact K0|].
    pose proof (updateTournamentPost_frame (reaction_rng r) (post_fetch_ok r)
                  (set_participants
                     (participants st ++ [mkPlayer (id q) (username q)]) st))
      as (Fa & _).
    pose proof (index_post_outputs (reaction_rng r) (post_fetch_ok r)
                  (set_participants
                     (participants st ++ [mkPlayer (id q) (username q)]) st)) as Fo.
    destruct (IndexJs.updateTournamentPost _ _ _) as [s o].
    cbn [fst snd] in *. cbn [set_participants isActive] in Fa. rewrite Fa, A.
    split; [discriminate|]. intros [w [H | H]]; [discriminate H|].
    exfalso. apply Fo. exists w. exact H.
  - unfold IndexJs.interactionCreate.
    destruct (isChatInputCommand ev); cbn [negb]; [|exact K0].
    destruct (String.eqb (commandName ev) "updatewinner"); cbn [negb]; [|exact K0].
    rewrite A. cbn [negb].
    destruct (declare_loop IndexJs.reply_for (username (winner_option ev)) (bracket st))
      as [[b reply]|] eqn:D.
    2:{ refine (K _ _). discriminate. }
    assert (Hr : forall x, reply <> FollowUpChampion x).
    { apply declare_loop_found in D. destruct D as (pre & m & post & _ & _ & _ & _ & ->).
      intros x. apply index_reply_plain. }
    pose proof (index_advance_status (interaction_rng ev) (set_bracket b st) A) as G.
    destruct (IndexJs.advance (interaction_rng ev) (set_bracket b st)) as [s1 o1].
    cbn [fst snd] in G.
    pose proof (updateTournamentPost_frame (interaction_rng ev) (interaction_post_ok ev) s1)
      as (Fa & _).
    pose proof (index_post_outputs (interaction_rng ev) (interaction_post_ok ev) s1) as Fo.
    destruct (IndexJs.updateTournamentPost _ _ s1) as [s2 o2].
    cbn [fst snd] in *. rewrite Fa, G. split.
    + intros [w H]. exists w. right. apply in_or_app. left. exact H.
    + intros [w [H | H]]; [destruct (Hr w H)|].
      apply in_app_or in H. destruct H as [H | H]; [exists w; exact H|].
      exfalso. apply Fo. exists w. exact H.
Qed.

Lemma status_drops_with_champion_witness :
  isActive (fst (IndexJs.step (IndexJs.run initialState four_player_game)
                   (InteractionCreate (updatewinner identity_order bob)))) = false.
Proof.
  apply (status_drops_with_champion (IndexJs.run initialState four_player_game)
           (InteractionCreate (updatewinner identity_order bob)) eq_refl).
  exists "alice". cbn. auto.
Defined.

(** A launch of src/index.js whose announcement cannot be posted leaves
    the tournament active without an announcement to react to.  From such
    a state (active, no announcement, no bracket) nothing can be done any
    more: every event, launches included, leaves the state as it is. *)
Theorem stalled_without_announcement (st : TournamentState) (es : list Event) :
  isActive st = true ->
  messageId st = None ->
  bracket st = [] ->
  IndexJs.run st es = st.
Proof.
  intros A M B. induction es as [|e es IH]; [reflexivity|].
  cbn [IndexJs.run fold_left].
  assert (E : fst (IndexJs.step st e) = st).
  { destruct e as [req | r | ev]; cbn [IndexJs.step].
    - unfold startTournament. rewrite A. reflexivity.
    - unfold IndexJs.messageReactionAdd, not_a_signup. rewrite M.
      cbn [negb]. rewrite orb_true_r. reflexivity.
    - unfold IndexJs.interactionCreate. rewrite A, B. cbn [negb declare_loop].
      destruct (isChatInputCommand ev); cbn [negb]; [|reflexivity].
      destruct (String.eqb (commandName ev) "updatewinner"); reflexivity. }
  rewrite E. exact IH.
Qed.

Lemma stalled_without_announcement_witness :
  IndexJs.run (fst (startTournament launch_unposted initialState)) two_player_game
  = mkState true (Some "c1") None []
      (Some (mkDetails (Some "cup") (Some "pie") "None" "Web App")) [].
Proof.
  rewrite (stalled_without_announcement
             (fst (startTournament launch_unposted initialState)) two_player_game
             eq_refl eq_refl eq_refl).
  reflexivity.
Defined.

End IndexStatus.

(** ** The roster *)

Section Roster.

Lemma index_advance_roster (rng : Shuffle) (st : TournamentState) :
  participants (fst (IndexJs.advance rng st)) = participants st.
Proof.
  unfold IndexJs.advance.
  destruct (allComplete (bracket st) && (1 <? length (bracket st))); [|reflexivity].
  cbn [set_bracket bracket].
  destruct (IndexJs.generatePairings rng (winners_of (participants st) (bracket st)))
    as [|m [|m' b]]; reflexivity.
Qed.

Lemma index_interaction_roster (ev : Interaction) (st : TournamentState) :
  participants (fst (IndexJs.interactionCreate ev st)) = participants st.
Proof.
  unfold IndexJs.interactionCreate.
  destruct (isChatInputCommand ev); cbn [negb]; [|reflexivity].
  destruct (String.eqb (commandName ev) "updatewinner"); cbn [negb]; [|reflexivity].
  destruct (isActive st); cbn [negb]; [|reflexivity].
  destruct (declare_loop IndexJs.reply_for (username (winner_option ev)) (bracket st))
    as [[b reply]|]; [|reflexivity].
  pose proof (index_advance_roster (interaction_rng ev) (set_bracket b st)) as G.
  destruct (IndexJs.advance (interaction_rng ev) (set_bracket b st)) as [s1 o1].
  pose proof (updateTournamentPost_frame (interaction_rng ev) (interaction_post_ok ev) s1)
    as (_ & _ & _ & Fp & _).
  destruct (IndexJs.updateTournamentPost _ _ s1) as [s2 o2].
  cbn [fst] in *. rewrite Fp, G. reflexivity.
Qed.

(** What a sign-up does to the roster in src/index.js: nothing, or one
    player appended whose id was not on it. *)
Lemma index_reaction_roster (r : Reaction) (st : TournamentState) :
  participants (fst (IndexJs.messageReactionAdd r st)) = participants st
  \/ exists q, participants (fst (IndexJs.messageReactionAdd r st)) = participants st ++ [q]
               /\ ~ In (id q) (map id (participants st)).
Proof.
  unfold IndexJs.messageReactionAdd.
  destruct (not_a_signup r st); [left; reflexivity|].
  destruct (isActive st); cbn [negb]; [|left; reflexivity].
  destruct (fetchedUser r) as [q|]; [|left; reflexivity].
  destruct (already_joined (participants st) (id q)) eqn:J; cbn [negb];
    [left; reflexivity|].
  right. exists (mkPlayer (id q) (username q)).
  pose proof (updateTournamentPost_frame (reaction_rng r) (post_fetch_ok r)
                (set_participants
                   (participants st ++ [mkPlayer (id q) (username q)]) st))
    as (_ & _ & _ & Fp & _).
  destruct (IndexJs.updateTournamentPost _ _ _) as [s o].
  cbn [fst] in *. split; [exact Fp|].
  cbn [id]. intros Hin. apply in_map_iff in Hin. destruct Hin as (p & Hp & Hin).
  unfold already_joined in J.
  assert (C : existsb (fun p => String.eqb (id p) (id q)) (participants st) = true).
  { apply existsb_exists. exists p. split; [exact Hin|]. apply String.eqb_eq. exact Hp. }
  congruence.
Qed.

Lemma NoDup_push (ids : list string) (i : string) :
  NoDup ids -> ~ In i ids -> NoDup (ids ++ [i]).
Proof.
  intros H Hi. apply NoDup_app; [exact H|constructor; [intros []|constructor]|].
  intros x Hx [<- | []]. exact (Hi Hx).
Qed.

Lemma index_step_ids (st : TournamentState) (e : Event) :
  NoDup (map id (participants st)) ->
  NoDup (map id (participants (fst (IndexJs.step st e)))).
Proof.
  intros H. destruct e as [req | r | ev]; cbn [IndexJs.step].
  - unfold startTournament.
    destruct (isActive st); [exact H|].
    destruct (falsy (req_name req) || falsy (req_prize req)
              || falsy (req_guildId req) || falsy (req_channelId req)); [exact H|].
    destruct (channel_ok req); cbn [negb]; [|exact H].
    destruct (posted req); constructor.
  - destruct (index_reaction_roster r st) as [-> | (q & -> & Hq)]; [exact H|].
    rewrite map_app. apply NoDup_push; assumption.
  - rewrite index_interaction_roster. exact H.
Qed.

Lemma variantB_post_roster (rng : Shuffle) (ok : bool) (st : TournamentState) :
  participants (fst (VariantB.updateTournamentPost rng ok st)) = participants st.
Proof.
  unfold VariantB.updateTournamentPost.
  destruct (falsy (messageId st) || falsy (channelId st)); [reflexivity|].
  destruct ok; cbn [negb fst]; [|reflexivity].
  destruct ((length (bracket st) =? 0) && (1 <? length (participants st)) && isActive st);
    reflexivity.
Qed.

Lemma variantB_step_ids (st : TournamentState) (e : Event) :
  NoDup (map id (participants st)) ->
  NoDup (map id (participants (fst (VariantB.step st e)))).
Proof.
  intros H. destruct e as [req | r | ev]; cbn [VariantB.step].
  - unfold startTournament.
    destruct (isActive st); [exact H|].
    destruct (falsy (req_name req) || falsy (req_prize req)
              || falsy (req_guildId req) || falsy (req_channelId req)); [exact H|].
    destruct (channel_ok req); cbn [negb]; [|exact H].
    destruct (posted req); constructor.
  - unfold VariantB.messageReactionAdd.
    destruct (not_a_signup r st); [exact H|].
    destruct (isActive st); cbn [negb]; [|exact H].
    destruct (fetchedUser r) as [q|]; [|exact H].
    destruct (already_joined (participants st) (id q)) eqn:J; cbn [negb]; [exact H|].
    pose proof (variantB_post_roster (reaction_rng r) (post_fetch_ok r)
                  (set_participants
                     (participants st ++ [mkPlayer (id q) (username q)]) st)) as Fp.
    destruct (VariantB.updateTournamentPost _ _ _) as [s o].
    cbn [fst] in *. rewrite Fp. cbn [set_participants participants].
    rewrite map_app. apply NoDup_push; [exact H|].
    cbn [map id]. intros Hin. apply in_map_iff in Hin. destruct Hin as (p & Hp & Hin).
    unfold already_joined in J.
    assert (C : existsb (fun p => String.eqb (id p) (id q)) (participants st) = true).
    { apply existsb_exists. exists p. split; [exact Hin|]. apply String.eqb_eq. exact Hp. }
    congruence.
  - unfold VariantB.interactionCreate.
    destruct (isChatInputCommand ev); cbn [negb]; [|exact H].
    destruct (String.eqb (commandName ev) "endtournament").
    { destruct (isAdmin ev); cbn [negb]; [|exact H].
      destruct (isActive st); cbn [negb]; [constructor|exact H]. }
    destruct (String.eqb (commandName ev) "updatewinner"); [|exact H].
    destruct (isAdmin ev); cbn [negb]; [|exact H].
    destruct (isActive st); cbn [negb]; [|exact H].
    destruct ((length (participants st) <? 2) || (length (bracket st) =? 0)); [exact H|].
    destruct (declare_loop VariantB.reply_for (username (winner_option ev)) (bracket st))
      as [[b reply]|]; [|exact H].
    assert (G : participants (fst (VariantB.advance (interaction_rng ev) (set_bracket b st)))
                = participants st).
    { unfold VariantB.advance. cbn [set_bracket bracket participants].
      destruct (allComplete b); [|reflexivity].
      destruct (winners_of (participants st) b) as [|w [|w' ws]]; reflexivity. }
    destruct (VariantB.advance (interaction_rng ev) (set_bracket b st)) as [s1 o1].
    pose proof (variantB_post_roster (interaction_rng ev) (interaction_post_ok ev) s1) as Fp.
    destruct (VariantB.updateTournamentPost _ _ s1) as [s2 o2].
    cbn [fst] in *. rewrite Fp, G. exact H.
Qed.

(** The roster never holds the same user id twice, in any state that
    src/index.js or the second program of part_001 can reach. *)
Theorem roster_ids_unique (st : TournamentState) :
  IndexJs.reachable st \/ VariantB.reachable st ->
  NoDup (map id (participants st)).
Proof.
  intros [R | R].
  - induction R as [|st e R IH]; [constructor|]. apply index_step_ids. exact IH.
  - induction R as [|st e R IH]; [constructor|]. apply variantB_step_ids. exact IH.
Qed.

Lemma roster_ids_unique_witness :
  participants (IndexJs.run initialState four_player_signup) = [alice; bob; carol; dave]
  /\ NoDup (map id (participants (IndexJs.run initialState four_player_signup))).
Proof.
  split; [reflexivity|].
  apply (roster_ids_unique (IndexJs.run initialState four_player_signup)).
  left. apply index_reachable_run. constructor.
Defined.

(** While src/index.js is not launched anew, the roster only grows at its
    end: whatever sign-ups and commands arrive, the players on the roster
    stay on it, in the order in which they joined. *)
Theorem roster_only_grows (st : TournamentState) (es : list Event) :
  Forall in_progress_event es ->
  extends (participants st) (participants (IndexJs.run st es)).
Proof.
  revert st. induction es as [|e es IH]; intros st Hes.
  - exists []. rewrite app_nil_r. reflexivity.
  - inversion Hes as [|? ? He Hes']; subst.
    cbn [IndexJs.run fold_left].
    destruct (IH (fst (IndexJs.step st e)) Hes') as [more Hmore].
    fold (IndexJs.run (fst (IndexJs.step st e)) es) in Hmore.
    assert (E : extends (participants st) (participants (fst (IndexJs.step st e)))).
    { destruct e as [req | r | ev]; [destruct He| |]; cbn [IndexJs.step].
      - destruct (index_reaction_roster r st) as [-> | (q & -> & _)].
        + exists []. rewrite app_nil_r. reflexivity.
        + exists [q]. reflexivity.
      - rewrite index_interaction_roster. exists []. rewrite app_nil_r. reflexivity. }
    destruct E as [first Hfirst]. exists (first ++ more).
    unfold IndexJs.run in *. rewrite Hmore, Hfirst, app_assoc. reflexivity.
Qed.

Lemma roster_only_grows_witness :
  extends [alice; bob]
    (participants
       (IndexJs.run finalPending
          [MessageReactionAdd (signup identity_order "m1" carol);
           InteractionCreate (updatewinner identity_order alice)])).
Proof.
  apply (roster_only_grows finalPending
           [MessageReactionAdd (signup identity_order "m1" carol);
            InteractionCreate (updatewinner identity_order alice)]).
  repeat constructor.
Defined.

End Roster.

(** ** When the bracket is fixed, and what a declaration leaves behind *)

Section BracketLife.

(** In src/index.js registration is over with the second player: on a
    freshly launched tournament whose announcement can be refreshed, the
    second sign-up generates the bracket, one match between the two
    players who joined.  (Who joins later lands on the roster only.) *)
Theorem bracket_set_at_second_signup
    (st : TournamentState) (r1 r2 : Reaction) (q1 q2 : Player) :
  isActive st = true ->
  falsy (messageId st) = false ->
  falsy (channelId st) = false ->
  participants st = [] ->
  bracket st = [] ->
  not_a_signup r1 st = false ->
  not_a_signup r2 st = false ->
  fetchedUser r1 = Some q1 ->
  fetchedUser r2 = Some q2 ->
  id q1 <> id q2 ->
  post_fetch_ok r2 = true ->
  let st2 :=
    fst (IndexJs.messageReactionAdd r2 (fst (IndexJs.messageReactionAdd r1 st))) in
  participants st2 = [mkPlayer (id q1) (username q1); mkPlayer (id q2) (username q2)]
  /\ (bracket st2 = [mkMatch 1 (username q1) (username q2) None]
      \/ bracket st2 = [mkMatch 1 (username q2) (username q1) None]).
Proof.
  intros A M C P B N1 N2 F1 F2 Hid Ok st2.
  assert (E1 : fst (IndexJs.messageReactionAdd r1 st)
               = set_participants [mkPlayer (id q1) (username q1)] st).
  { unfold IndexJs.messageReactionAdd. rewrite N1, A, F1, P. cbn [negb already_joined existsb app].
    unfold IndexJs.updateTournamentPost.
    cbn [set_participants messageId channelId bracket participants].
    rewrite M, C, B. cbn [orb].
    destruct (post_fetch_ok r1); reflexivity. }
  assert (N2' : not_a_signup r2 (set_participants [mkPlayer (id q1) (username q1)] st)
                = false) by exact N2.
  assert (J : already_joined [mkPlayer (id q1) (username q1)] (id q2) = false).
  { cbn. rewrite orb_false_r. apply String.eqb_neq. exact Hid. }
  unfold st2. rewrite E1. unfold IndexJs.messageReactionAdd.
  rewrite N2', F2. cbn [set_participants isActive participants]. rewrite A, J.
  cbn [negb app]. unfold IndexJs.updateTournamentPost.
  cbn [set_participants messageId channelId bracket participants].
  rewrite M, C, B, Ok. cbn [orb negb length Nat.eqb Nat.ltb Nat.leb andb fst].
  cbn [set_bracket participants bracket]. split; [reflexivity|].
  destruct (generatePairings_two (reaction_rng r2)
              (mkPlayer (id q1) (username q1)) (mkPlayer (id q2) (username q2)))
    as [G | G]; rewrite G; [left | right]; reflexivity.
Qed.

Lemma bracket_set_at_second_signup_witness :
  bracket (IndexJs.run initialState two_player_signup)
  = [mkMatch 1 "alice" "bob" None]
  /\ (bracket (fst (IndexJs.messageReactionAdd (signup reversed_order "m1" bob)
                      (fst (IndexJs.messageReactionAdd (signup identity_order "m1" alice)
                              (fst (startTournament launch initialState))))))
      = [mkMatch 1 "alice" "bob" None]
      \/ bracket (fst (IndexJs.messageReactionAdd (signup reversed_order "m1" bob)
                         (fst (IndexJs.messageReactionAdd (signup identity_order "m1" alice)
                                 (fst (startTournament launch initialState))))))
         = [mkMatch 1 "bob" "alice" None]).
Proof.
  split; [reflexivity|].
  apply (bracket_set_at_second_signup (fst (startTournament launch initialState))
           (signup identity_order "m1" alice) (signup reversed_order "m1" bob) alice bob);
    try reflexivity.
  discriminate.
Defined.

Lemma count_zero_not_in (l : list string) (w : string) :
  count_occ string_dec l w = 0 -> ~ In w l.
Proof. intros H. apply (count_occ_not_In string_dec). exact H. Qed.

(** In src/index.js a winner cannot be advanced twice in a round: after
    [/updatewinner] recorded a player whose username sits in one slot of
    the round, and the round is not complete yet, the same command for
    the same username is turned down and changes nothing. *)
Theorem no_double_advance
    (st : TournamentState) (ev ev' : Interaction) (b1 : list Match) (r : Output) :
  isActive st = true ->
  isChatInputCommand ev = true -> commandName ev = "updatewinner" ->
  isChatInputCommand ev' = true -> commandName ev' = "updatewinner" ->
  username (winner_option ev') = username (winner_option ev) ->
  username (winner_option ev) <> "" ->
  count_occ string_dec (slots (bracket st)) (username (winner_option ev)) = 1 ->
  declare_loop IndexJs.reply_for (username (winner_option ev)) (bracket st)
  = Some (b1, r) ->
  allComplete b1 = false ->
  let st1 := fst (IndexJs.interactionCreate ev st) in
  st1 = set_bracket b1 st
  /\ IndexJs.interactionCreate ev' st1
     = (st1, [ReplyNoActiveMatch (username (winner_option ev))]).
Proof.
  intros A C1 C2 C1' C2' Hu Hne Hcount D Hopen st1.
  set (w := username (winner_option ev)) in *.
  assert (E : st1 = set_bracket b1 st).
  { unfold st1, IndexJs.interactionCreate. rewrite C1, C2, String.eqb_refl, A.
    cbn [negb]. fold w. rewrite D. unfold IndexJs.advance.
    cbn [set_bracket bracket]. rewrite Hopen. cbn [andb].
    pose proof (updateTournamentPost_frame (interaction_rng ev) (interaction_post_ok ev)
                  (set_bracket b1 st)) as (Fa & Fc & Fm & Fp & Fd & Fb).
    assert (Hb1 : bracket (set_bracket b1 st) <> []).
    { cbn. apply declare_loop_found in D.
      destruct D as (pre & m & post & _ & _ & _ & -> & _). destruct pre; discriminate. }
    specialize (Fb Hb1).
    destruct (IndexJs.updateTournamentPost _ _ (set_bracket b1 st)) as [s o].
    cbn [fst] in *. destruct s; cbn in *. unfold set_bracket. cbn. congruence. }
  split; [exact E|]. rewrite E.
  assert (Hnone : in_no_unresolved_match w b1).
  { apply declare_loop_found in D.
    destruct D as (pre & m & post & Hb & _ & Hm & -> & _).
    rewrite Hb in Hcount. unfold slots in Hcount.
    rewrite flat_map_app in Hcount. cbn [flat_map] in Hcount.
    rewrite !count_occ_app in Hcount.
    assert (Hmid : 1 <= count_occ string_dec [p1 m; p2 m] w).
    { unfold eligible in Hm. apply andb_true_iff in Hm. destruct Hm as [_ Hm].
      apply orb_true_iff in Hm. cbn [count_occ].
      destruct Hm as [Hm | Hm]; apply String.eqb_eq in Hm.
      - destruct (string_dec (p1 m) w); [|contradiction].
        destruct (string_dec (p2 m) w); lia.
      - destruct (string_dec (p2 m) w); [|contradiction].
        destruct (string_dec (p1 m) w); lia. }
    assert (Hpre : ~ In w (flat_map (fun m => [p1 m; p2 m]) pre))
      by (apply count_zero_not_in; lia).
    assert (Hpost : ~ In w (flat_map (fun m => [p1 m; p2 m]) post))
      by (apply count_zero_not_in; lia).
    intros m' Hin Hun. apply in_app_or in Hin.
    assert (K : forall l, ~ In w (flat_map (fun m => [p1 m; p2 m]) l) -> In m' l ->
                          p1 m' <> w /\ p2 m' <> w).
    { intros l Hl Hml. split; intros Eq; apply Hl; apply in_flat_map; exists m';
        (split; [exact Hml|]); cbn; auto. }
    destruct Hin as [Hin | [<- | Hin]].
    - apply (K pre); assumption.
    - unfold unresolved in Hun. cbn [set_winner winner falsy] in Hun.
      apply String.eqb_eq in Hun. contradiction.
    - apply (K post); assumption. }
  unfold IndexJs.interactionCreate. rewrite C1', C2', String.eqb_refl.
  cbn [negb set_bracket isActive bracket]. rewrite A. cbn [negb].
  rewrite Hu. fold w. rewrite (declare_loop_none _ _ _ Hnone). reflexivity.
Qed.

Lemma no_double_advance_witness :
  IndexJs.interactionCreate (updatewinner reversed_order alice)
    (fst (IndexJs.interactionCreate (updatewinner identity_order alice)
            (IndexJs.run initialState four_player_signup)))
  = (IndexJs.run initialState four_player_game, [ReplyNoActiveMatch "alice"]).
Proof.
  pose proof (no_double_advance (IndexJs.run initialState four_player_signup)
                (updatewinner identity_order alice) (updatewinner reversed_order alice)
                [mkMatch 1 "alice" "dave" (Some "alice"); mkMatch 2 "bob" "carol" None]
                (ReplyAdvanced "alice")
                eq_refl eq_refl eq_refl eq_refl eq_refl eq_refl
                ltac:(discriminate) eq_refl eq_refl eq_refl) as [_ H].
  cbv zeta in H. rewrite H. reflexivity.
Defined.

End BracketLife.

(** ** Idle tournaments and who may command *)

Section Guards.

Lemma join_outcome_inactive (r : Reaction) (st : TournamentState) :
  isActive st = false -> fst (IndexJs.messageReactionAdd r st) = st.
Proof.
  intros A. unfold IndexJs.messageReactionAdd. rewrite A.
  destruct (not_a_signup r st); reflexivity.
Qed.

Lemma inert_step (st : TournamentState) (e : Event) :
  in_progress_event e ->
  isActive st = false ->
  fst (IndexJs.step st e) = st
  /\ fst (VariantA.step st e) = st
  /\ fst (VariantB.step st e) = st.
Proof.
  intros He A. destruct e as [req | r | ev]; [destruct He| |].
  - cbn [IndexJs.step VariantA.step VariantB.step].
    rewrite (join_outcome_inactive r st A).
    destruct (variants_join_when_inactive st r A) as [-> ->]. auto.
  - cbn [IndexJs.step VariantA.step VariantB.step].
    unfold IndexJs.interactionCreate, VariantA.interactionCreate,
      VariantB.interactionCreate.
    rewrite A. cbn [negb]. rewrite !orb_true_r.
    destruct (isChatInputCommand ev); cbn [negb]; [|auto].
    destruct (String.eqb (commandName ev) "updatewinner");
      destruct (String.eqb (commandName ev) "endtournament");
      destruct (isAdmin ev); cbn; auto.
Qed.

(** A tournament that is not active -- never launched, finished, or
    cancelled -- is changed by nothing but a new launch: sign-ups and
    slash commands leave the whole state as it is, in all three
    programs. *)
Theorem inactive_is_inert (st : TournamentState) (es : list Event) :
  isActive st = false ->
  Forall in_progress_event es ->
  IndexJs.run st es = st /\ runA st es = st /\ VariantB.run st es = st.
Proof.
  intros A Hes. induction Hes as [|e es He Hes IH]; [auto|].
  destruct (inert_step st e He A) as (E1 & E2 & E3).
  unfold IndexJs.run, runA, VariantB.run in *. cbn [fold_left].
  rewrite E1, E2, E3. exact IH.
Qed.

Lemma inactive_is_inert_witness :
  VariantB.run finishedState
    [MessageReactionAdd (signup identity_order "m1" carol);
     InteractionCreate (updatewinner identity_order alice);
     InteractionCreate (endtournament true)]
  = finishedState.
Proof.
  apply (inactive_is_inert finishedState
           [MessageReactionAdd (signup identity_order "m1" carol);
            InteractionCreate (updatewinner identity_order alice);
            InteractionCreate (endtournament true)] eq_refl).
  repeat constructor.
Defined.

(** In both programs of part_001 slash commands change the tournament
    for administrators only: whatever the command and the state, an
    interaction of a member without the Administrator permission leaves
    the state untouched.  For an administrator [/endtournament] puts an
    active tournament back into the state of program start. *)
Theorem commands_need_admin (st : TournamentState) (ev : Interaction) :
  (isAdmin ev = false ->
   fst (VariantA.interactionCreate ev st) = st
   /\ fst (VariantB.interactionCreate ev st) = st)
  /\ (isAdmin ev = true -> isChatInputCommand ev = true ->
      commandName ev = "endtournament" -> isActive st = true ->
      VariantA.interactionCreate ev st = (initialState, [ReplyEnded])
      /\ VariantB.interactionCreate ev st = (initialState, [ReplyEnded])).
Proof.
  split.
  - intros A. unfold VariantA.interactionCreate, VariantB.interactionCreate.
    rewrite A. cbn [negb orb].
    destruct (isChatInputCommand ev); cbn [negb]; [|auto].
    destruct (String.eqb (commandName ev) "endtournament"); [auto|].
    destruct (String.eqb (commandName ev) "updatewinner"); auto.
  - intros A C N Act. unfold VariantA.interactionCreate, VariantB.interactionCreate.
    rewrite A, C, N, Act. split; reflexivity.
Qed.

(** The invariant of the winners, in the two programs of part_001: in
    every state they can reach, a match whose winner is set has that
    winner in one of its slots.  This covers the matches against BYE that
    the first program resolves at generation and the match with the
    "CHAMPION" slot that both put in the bracket at the end. *)
Theorem later_programs_winner_is_a_slot (st : TournamentState) :
  VariantA.reachable st \/ VariantB.reachable st ->
  winners_in_slots st.
Proof.
  intros [R | R].
  - apply (proj1 variants_winner_is_a_slot). exact R.
  - apply (proj2 variants_winner_is_a_slot). exact R.
Qed.

Lemma later_programs_winner_is_a_slot_witness :
  bracket (fst (VariantB.step
                  (fst (VariantB.step
                          (fst (VariantB.step
                                  (fst (VariantB.step initialState (StartTournament launch)))
                                  (MessageReactionAdd (signup identity_order "m1" alice))))
                          (MessageReactionAdd (signup identity_order "m1" bob))))
                  (InteractionCreate (updatewinner identity_order bob))))
  = [mkMatch 1 "bob" "CHAMPION" (Some "bob")]
  /\ winners_in_slots
       (fst (VariantB.step
               (fst (VariantB.step
                       (fst (VariantB.step
                               (fst (VariantB.step initialState (StartTournament launch)))
                               (MessageReactionAdd (signup identity_order "m1" alice))))
                       (MessageReactionAdd (signup identity_order "m1" bob))))
               (InteractionCreate (updatewinner identity_order bob)))).
Proof.
  split; [reflexivity|].
  apply later_programs_winner_is_a_slot. right.
  repeat apply VariantB.reachable_step. apply VariantB.reachable_init.
Defined.

(** A run of [variantB_convergence]: two players, one declaration, which
    is the [ceil2 2 - 1] declarations of the statement. *)
Lemma variantB_convergence_witness :
  isActive (VariantB.run duel
              (map InteractionCreate [updatewinner identity_order alice])) = false
  /\ champions (VariantB.trace duel
                  (map InteractionCreate [updatewinner identity_order alice])) = 1
  /\ rounds_completed (VariantB.trace duel
                         (map InteractionCreate [updatewinner identity_order alice]))
     = Nat.log2_up 2.
Proof.
  assert (V : valid_play duel [updatewinner identity_order alice]).
  { constructor; [reflexivity| |constructor].
    unfold valid_declaration. repeat split; [left; reflexivity|].
    exists (mkMatch 1 "alice" "bob" None). split; [left|]; reflexivity. }
  pose proof (variantB_convergence [alice; bob] ltac:(cbn; lia)
                ltac:(cbn; intros [E | [E | []]]; discriminate E)
                identity_order duel eq_refl eq_refl eq_refl
                [updatewinner identity_order alice] V) as (_ & _ & H).
  cbv zeta in H. apply H. reflexivity.
Defined.

End Guards.

(** ** The bracket image *)

Section BracketImage.

(** The lowest point of the drawing of one match is the lower edge of
    its box. *)
Lemma draw_match_bottom (m : Match) (index limit : nat) :
  Forall (fun op => op_bottom op <= limit) (IndexJsImage.draw_match m index)
  <-> 140 + 90 * index <= limit.
Proof.
  unfold IndexJsImage.draw_match, IndexJsImage.startY, IndexJsImage.startX,
    IndexJsImage.BOX_HEIGHT, IndexJsImage.BOX_WIDTH.
  replace (40 * 3 / 2) with 60 by reflexivity.
  replace (40 / 2) with 20 by reflexivity.
  assert (L : op_bottom
                match winner m with
                | Some w =>
                    if String.eqb w ""
                    then FillText Gray "WINNER PENDING" (20 + 180 + 60)
                           (60 + index * (40 * 2 + 10) + 40 + 5)
                    else FillText WinnerColor (String.append "> " w) (20 + 180 + 60)
                           (60 + index * (40 * 2 + 10) + 40 + 5)
                | None => FillText Gray "WINNER PENDING" (20 + 180 + 60)
                            (60 + index * (40 * 2 + 10) + 40 + 5)
                end = 60 + index * (40 * 2 + 10) + 40 + 5).
  { destruct (winner m) as [w|]; [destruct (String.eqb w "")|]; reflexivity. }
  rewrite !Forall_cons_iff. rewrite L. cbn [op_bottom]. split.
  - intros (H & _). lia.
  - intros H. repeat split; try lia. constructor.
Qed.

Lemma forEach_bottom (b : list Match) (index limit : nat) :
  Forall (fun op => op_bottom op <= limit)
    (forEach_indexed IndexJsImage.draw_match index b)
  <-> (b = [] \/ 140 + 90 * (index + length b - 1) <= limit).
Proof.
  revert index. induction b as [|m b IH]; intros index.
  - cbn. split; [auto|constructor].
  - cbn [forEach_indexed length]. rewrite Forall_app, draw_match_bottom, IH.
    split.
    + intros (H1 & [-> | H2]); right; cbn [length]; [|lia].
      replace (index + 1 - 1) with index by lia. exact H1.
    + intros [H | H]; [discriminate H|]. split; [lia|].
      destruct b as [|m' b]; [left; reflexivity|right]. cbn [length] in *. lia.
Qed.

Lemma index_image_fits (b : list Match) :
  within_height (IndexJsImage.drawTournamentBracket b) <-> length b <= 6.
Proof.
  unfold within_height, IndexJsImage.drawTournamentBracket.
  cbn [image_ops image_height]. rewrite !Forall_cons_iff, forEach_bottom.
  unfold IndexJsImage.WIDTH, IndexJsImage.HEIGHT. cbn [op_bottom]. split.
  - intros (_ & _ & [-> | H]); [cbn; lia|]. lia.
  - intros H. split; [lia|]. split; [lia|].
    destruct b as [|m b]; [left; reflexivity|right]. cbn [length] in *. lia.
Qed.

Lemma half_ceil2_small (n : nat) : 2 <= n -> (ceil2 n / 2 <= 6 <-> n <= 8).
Proof.
  intros Hn. pose proof (ceil2_even n Hn) as He. pose proof (ceil2_above n) as Ha.
  split.
  - intros H. destruct (Nat.le_gt_cases n 8) as [L | L]; [exact L|].
    exfalso. unfold ceil2 in *.
    destruct (Nat.le_gt_cases (Nat.log2_up n) 3) as [K | K].
    + pose proof (Nat.pow_le_mono_r 2 _ 3 ltac:(lia) K) as P.
      change (2 ^ 3) with 8 in P. lia.
    + pose proof (Nat.pow_le_mono_r 2 4 _ ltac:(lia) K) as P.
      change (2 ^ 4) with 16 in P. lia.
  - intros H. pose proof (ceil2_least n 3 ltac:(change (2 ^ 3) with 8; lia)) as P.
    change (2 ^ 3) with 8 in P. lia.
Qed.

(** The image of src/index.js has a fixed height of 600 pixels and one
    box of 80 pixels every 90 pixels from 60 on: whatever round is drawn,
    everything lies on the canvas exactly when the round has six matches
    or fewer.  For a round generated from [n >= 2] players that is
    exactly when [n <= 8]: from nine players on the lower matches are
    drawn below the edge. *)
Theorem bracket_image_fits_up_to_eight (rng : Shuffle) (players : list Player) :
  2 <= length players ->
  (forall b, within_height (IndexJsImage.drawTournamentBracket b) <-> length b <= 6)
  /\ (within_height
        (IndexJsImage.drawTournamentBracket (IndexJs.generatePairings rng players))
      <-> length players <= 8).
Proof.
  intros Hn. split; [apply index_image_fits|].
  rewrite index_image_fits.
  destruct (generated_round pending_match
              (fun _ _ => eq_refl) (fun _ _ => eq_refl) (fun _ _ => eq_refl)
              rng players Hn) as [Hlen _].
  change (pairings_loop _ _ _ _ _) with (IndexJs.generatePairings rng players) in Hlen.
  rewrite Hlen. apply half_ceil2_small. exact Hn.
Qed.

Lemma bracket_image_fits_up_to_eight_witness :
  within_height
    (IndexJsImage.drawTournamentBracket
       (IndexJs.generatePairings identity_order [alice; bob; carol])).
Proof.
  apply (bracket_image_fits_up_to_eight identity_order [alice; bob; carol]).
  - cbn. lia.
  - cbn. lia.
Defined.

(** The second program of part_001 sizes the canvas by the number of
    matches, and there the whole drawing lies on the canvas for every
    round. *)
Theorem sized_image_always_fits (b : list Match) :
  within_height (VariantBImage.drawTournamentBracket b)
  /\ 600 <= image_height (VariantBImage.drawTournamentBracket b)
  /\ 90 * length b + 80 <= image_height (VariantBImage.drawTournamentBracket b).
Proof.
  unfold within_height, VariantBImage.drawTournamentBracket,
    VariantBImage.requiredHeight, VariantBImage.MATCH_SPACING,
    IndexJsImage.HEIGHT, IndexJsImage.BOX_HEIGHT, IndexJsImage.WIDTH.
  cbn [image_ops image_height].
  split; [|lia].
  rewrite !Forall_cons_iff, forEach_bottom. cbn [op_bottom].
  split; [lia|]. split; [lia|].
  destruct b as [|m b]; [left; reflexivity|right]. cbn [length]. lia.
Qed.

Lemma forEach_In (f : Match -> nat -> list CanvasOp) (b : list Match)
    (index : nat) (op : CanvasOp) :
  In op (forEach_indexed f index b)
  <-> exists m j, nth_error b j = Some m /\ In op (f m (index + j)).
Proof.
  revert index. induction b as [|m b IH]; intros index.
  - cbn. split; [intros []|intros (m & [|j] & H & _); discriminate H].
  - cbn [forEach_indexed]. rewrite in_app_iff, IH. split.
    + intros [H | (m' & j & Hj & H)].
      * exists m, 0. rewrite Nat.add_0_r. auto.
      * exists m', (S j). rewrite Nat.add_succ_r. auto.
    + intros (m' & [|j] & Hj & H).
      * left. injection Hj as <-. rewrite Nat.add_0_r in H. exact H.
      * right. exists m', j. rewrite Nat.add_succ_r in H. auto.
Qed.

Lemma index_reachable_winners (st : TournamentState) :
  IndexJs.reachable st -> winners_in_slots st.
Proof.
  induction 1 as [|st e R IH]; [constructor|]. apply index_step_ok. exact IH.
Qed.

(** In the image of a round that src/index.js can reach, the usernames
    written in the winner colour in the column of the players are exactly
    the winners recorded in that round. *)
Theorem highlighted_names_are_winners (st : TournamentState) (u : string) :
  IndexJs.reachable st ->
  (exists y, In (FillText WinnerColor u 30 y)
               (image_ops (IndexJsImage.drawTournamentBracket (bracket st))))
  <-> (exists m, In m (bracket st) /\ winner m = Some u).
Proof.
  intros R. pose proof (index_reachable_winners st R) as W.
  unfold winners_in_slots in W. rewrite Forall_forall in W.
  unfold IndexJsImage.drawTournamentBracket. cbn [image_ops]. split.
  - intros (y & [H | [H | H]]); [discriminate H|discriminate H|].
    apply forEach_In in H. destruct H as (m & j & Hj & H).
    exists m. split; [eapply nth_error_In; eauto|].
    unfold IndexJsImage.draw_match, winner_is in H.
    cbn [In] in H.
    destruct H as [H | [H | [H | [H | [H | [H | []]]]]]]; try discriminate H.
    + destruct (winner m) as [w|]; [|discriminate H].
      destruct (String.eqb w (p1 m)) eqn:E; [|discriminate H].
      apply String.eqb_eq in E. injection H as H _. congruence.
    + destruct (winner m) as [w|]; [|discriminate H].
      destruct (String.eqb w (p2 m)) eqn:E; [|discriminate H].
      apply String.eqb_eq in E. injection H as H _. congruence.
    + destruct (winner m) as [w|]; [destruct (String.eqb w "")|];
        discriminate H.
  - intros (m & Hin & Hw).
    destruct (In_nth_error _ _ Hin) as [j Hj].
    destruct (W m Hin u Hw) as [E | E].
    + exists (IndexJsImage.startY + j * (IndexJsImage.BOX_HEIGHT * 2 + 10)
              + IndexJsImage.BOX_HEIGHT / 2 + 5).
      right. right. apply forEach_In. exists m, j. split; [exact Hj|].
      unfold IndexJsImage.draw_match, winner_is. rewrite Hw, <- E, String.eqb_refl.
      right. left. reflexivity.
    + exists (IndexJsImage.startY + j * (IndexJsImage.BOX_HEIGHT * 2 + 10)
              + IndexJsImage.BOX_HEIGHT * 3 / 2 + 5).
      right. right. apply forEach_In. exists m, j. split; [exact Hj|].
      unfold IndexJsImage.draw_match, winner_is. rewrite Hw, <- E, String.eqb_refl.
      right. right. left. reflexivity.
Qed.

Lemma highlighted_names_are_winners_witness :
  exists y, In (FillText WinnerColor "alice" 30 y)
              (image_ops (IndexJsImage.drawTournamentBracket
                            (bracket (IndexJs.run initialState two_player_game)))).
Proof.
  apply (highlighted_names_are_winners (IndexJs.run initialState two_player_game) "alice").
  - apply index_reachable_run. constructor.
  - exists (mkMatch 1 "alice" "bob" (Some "alice")). split; [left|]; reflexivity.
Defined.

End BracketImage.

(** ** The servers offered for a launch *)

Section ManageableGuilds.

Open Scope Z_scope.




End ManageableGuilds.

(** ** Convergence of the first program of part_001 *)

Section VariantAConvergence.

Variable ps : list Player.
Hypothesis roster_size : 2 <= length ps.
Hypothesis names_nonempty : ~ In "" (map username ps).
Hypothesis names_no_bye : ~ In "BYE" (map username ps).

Let names : list string := map username ps.













End VariantAConvergence.

